(** * biojs-vis-gprofiler: the ranking pipeline of [lib/biojsvisgprofiler.js]

    A shallow embedding of the word-cloud pipeline (distil, collapse, score,
    sort and cap, size, colour) together with the JavaScript behaviour it
    relies on: numbers with their non-finite values, plain objects used as
    string-keyed maps, and [Array.prototype.sort].

    Numbers are idealised: a finite number is a real, arithmetic on finite
    numbers is exact, zero carries no sign.  Strings are sequences of 8-bit
    code units; case mapping and white space are the ASCII ones.  The
    order in which [sort] leaves an array is the engine's, so the Selector
    takes the engine as a parameter; two engines are given. *)

From Stdlib Require Import Reals Lra Lia ZArith NArith List String Ascii Bool.
From Stdlib Require Import Permutation Sorted.
Import ListNotations.

Set Implicit Arguments.

(* ================================================================== *)
(** ** JavaScript numbers *)

Module JsNum.
Local Open Scope R_scope.

(** A number is finite, [NaN], [Infinity] or [-Infinity]. *)
Inductive jsnum : Type :=
| Fin (x : R)
| NaN
| PInf
| NInf.

(** The result of [x * Infinity] (or [x / 0]) by the sign of the finite
    operand: [NaN] at zero, [pos] above it, [neg] below. *)
Definition by_sign (x : R) (pos neg : jsnum) : jsnum :=
  if Req_dec_T x 0 then NaN else if Rlt_dec 0 x then pos else neg.

Definition js_add (a b : jsnum) : jsnum :=
  match a, b with
  | NaN, _ | _, NaN => NaN
  | Fin x, Fin y => Fin (x + y)
  | PInf, NInf | NInf, PInf => NaN
  | PInf, _ | _, PInf => PInf
  | NInf, _ | _, NInf => NInf
  end.

Definition js_mul (a b : jsnum) : jsnum :=
  match a, b with
  | NaN, _ | _, NaN => NaN
  | Fin x, Fin y => Fin (x * y)
  | Fin x, PInf | PInf, Fin x => by_sign x PInf NInf
  | Fin x, NInf | NInf, Fin x => by_sign x NInf PInf
  | PInf, PInf | NInf, NInf => PInf
  | PInf, NInf | NInf, PInf => NInf
  end.

Definition js_div (a b : jsnum) : jsnum :=
  match a, b with
  | NaN, _ | _, NaN => NaN
  | Fin x, Fin y => if Req_dec_T y 0 then by_sign x PInf NInf else Fin (x / y)
  | Fin _, PInf | Fin _, NInf => Fin 0
  | PInf, Fin y => if Rlt_dec y 0 then NInf else PInf
  | NInf, Fin y => if Rlt_dec y 0 then PInf else NInf
  | _, _ => NaN
  end.

(** [a < b]; any comparison with [NaN] is false. *)
Definition js_lt (a b : jsnum) : bool :=
  match a, b with
  | NaN, _ | _, NaN => false
  | Fin x, Fin y => if Rlt_dec x y then true else false
  | _, NInf => false
  | NInf, _ => true
  | PInf, _ => false
  | Fin _, PInf => true
  end.

(** [Math.abs]. *)
Definition Math_abs (a : jsnum) : jsnum :=
  match a with
  | Fin x => Fin (Rabs x)
  | NaN => NaN
  | PInf | NInf => PInf
  end.

(** [Math.log]: the natural logarithm, [-Infinity] at zero, [NaN] below. *)
Definition Math_log (a : jsnum) : jsnum :=
  match a with
  | Fin x =>
      if Rlt_dec x 0 then NaN
      else if Req_dec_T x 0 then NInf
      else Fin (ln x)
  | NaN | NInf => NaN
  | PInf => PInf
  end.

(** Sum of a list of numbers, left to right from zero. *)
Definition js_sum (l : list jsnum) : jsnum := fold_left js_add l (Fin 0).


End JsNum.
Export JsNum.

(* ================================================================== *)
(** ** Errors and fallible computations *)

(** What the code throws: [new Error(message)], or the [TypeError] the
    runtime raises on a property access through [undefined]. *)
Inductive exn : Type :=
| Error (message : string)
| TypeError (message : string).

Inductive result (A : Type) : Type :=
| Ok (a : A)
| Raise (e : exn).
Arguments Ok {A} a.
Arguments Raise {A} e.

Definition bind {A B} (m : result A) (f : A -> result B) : result B :=
  match m with
  | Ok a => f a
  | Raise e => Raise e
  end.

Declare Scope result_scope.
Delimit Scope result_scope with result.
Notation "x <- m ;; k" := (bind m (fun x => k))
  (at level 61, m at next level, right associativity) : result_scope.
Local Open Scope result_scope.

(* ================================================================== *)
(** ** Plain objects used as maps *)

Module JsObj.
Local Open Scope string_scope.

(** The own enumerable properties of an object created by [{}], in creation
    order.  Keys are distinct. *)
Definition obj (V : Type) : Type := list (string * V).

(** The properties every plain object inherits from [Object.prototype]. *)
Definition object_prototype_names : list string :=
  [ "constructor"; "toString"; "toLocaleString"; "valueOf";
    "hasOwnProperty"; "isPrototypeOf"; "propertyIsEnumerable";
    "__proto__"; "__defineGetter__"; "__defineSetter__";
    "__lookupGetter__"; "__lookupSetter__" ].

Definition inherited (k : string) : bool :=
  existsb (String.eqb k) object_prototype_names.

(** The value of [o[k]]. *)
Inductive prop (V : Type) : Type :=
| Own (v : V)
| Inherited
| Undefined.
Arguments Own {V} v.
Arguments Inherited {V}.
Arguments Undefined {V}.

Fixpoint own {V} (o : obj V) (k : string) : option V :=
  match o with
  | [] => None
  | (k', v) :: o' => if String.eqb k k' then Some v else own o' k
  end.

Definition get {V} (o : obj V) (k : string) : prop V :=
  match own o k with
  | Some v => Own v
  | None => if inherited k then Inherited else Undefined
  end.

Fixpoint put {V} (o : obj V) (k : string) (v : V) : obj V :=
  match o with
  | [] => [(k, v)]
  | (k', v') :: o' =>
      if String.eqb k k' then (k', v) :: o' else (k', v') :: put o' k v
  end.

(** [o[k] = v]: an existing property keeps its place, a new one is added
    last; assigning a primitive to [__proto__] changes nothing. *)
Definition set {V} (o : obj V) (k : string) (v : V) : obj V :=
  if String.eqb k "__proto__" then o else put o k v.

(** Array indices: canonical decimal numerals below [2^32 - 1]. *)
Definition digit_of (c : ascii) : option N :=
  let n := N_of_ascii c in
  if (48 <=? n)%N && (n <=? 57)%N then Some (n - 48)%N else None.

Fixpoint digits_value (s : string) (acc : N) : option N :=
  match s with
  | EmptyString => Some acc
  | String c r =>
      match digit_of c with
      | Some d => digits_value r (acc * 10 + d)%N
      | None => None
      end
  end.

Definition array_index (s : string) : option N :=
  match s with
  | EmptyString => None
  | String c r =>
      if Ascii.eqb c "0"%char && negb (String.eqb r "") then None
      else match digits_value s 0%N with
           | Some n => if (n <? 4294967295)%N then Some n else None
           | None => None
           end
  end.

Definition is_index (s : string) : bool :=
  match array_index s with Some _ => true | None => false end.

Definition index_of (s : string) : N :=
  match array_index s with Some n => n | None => 0%N end.

(** Property enumeration order ([for-in], [Object.keys]): array indices in
    ascending numeric order, then the other keys in creation order. *)
Fixpoint insert_index {V} (e : string * V) (l : list (string * V))
  : list (string * V) :=
  match l with
  | [] => [e]
  | e' :: r =>
      if (index_of (fst e) <? index_of (fst e'))%N then e :: l
      else e' :: insert_index e r
  end.

Definition sort_index {V} (l : list (string * V)) : list (string * V) :=
  fold_right insert_index [] l.

Definition entries {V} (o : obj V) : list (string * V) :=
  sort_index (filter (fun e => is_index (fst e)) o)
  ++ filter (fun e => negb (is_index (fst e))) o.

Definition keys {V} (o : obj V) : list string := map fst (entries o).

(** [_.values(o)]. *)
Definition values {V} (o : obj V) : list V := map snd (entries o).

End JsObj.

(* ================================================================== *)
(** ** Strings *)

Module JsString.
Local Open Scope string_scope.

Definition is_upper (c : ascii) : bool :=
  let n := N_of_ascii c in (65 <=? n)%N && (n <=? 90)%N.

Definition is_lower (c : ascii) : bool :=
  let n := N_of_ascii c in (97 <=? n)%N && (n <=? 122)%N.

Definition upper_char (c : ascii) : ascii :=
  if is_lower c then ascii_of_N (N_of_ascii c - 32) else c.

Definition lower_char (c : ascii) : ascii :=
  if is_upper c then ascii_of_N (N_of_ascii c + 32) else c.

Fixpoint map_string (f : ascii -> ascii) (s : string) : string :=
  match s with
  | EmptyString => EmptyString
  | String c r => String (f c) (map_string f r)
  end.

Definition toUpperCase : string -> string := map_string upper_char.
Definition toLowerCase : string -> string := map_string lower_char.

(** The class [\s]: tab, line feed, vertical tab, form feed, carriage
    return, space. *)
Definition is_space (c : ascii) : bool :=
  let n := N_of_ascii c in ((9 <=? n)%N && (n <=? 13)%N) || (n =? 32)%N.

(** [s.split(/\s+/)]: [cur] holds the current piece reversed, [skipping]
    says that the previous unit belonged to a separator. *)
Fixpoint split_go (s : string) (cur : string) (skipping : bool)
  : list string :=
  match s with
  | EmptyString => [cur]
  | String c r =>
      if is_space c then
        if skipping then split_go r cur true
        else cur :: split_go r EmptyString true
      else split_go r (cur ++ String c EmptyString) false
  end.

Definition split_spaces (s : string) : list string :=
  split_go s EmptyString false.

(** The class [[\.\:,;]]. *)
Definition is_punct (c : ascii) : bool :=
  existsb (Ascii.eqb c) ["."%char; ":"%char; ","%char; ";"%char].

(** [s.replace(/[\.\:,;]+$/g, '')]: the longest trailing run of the class
    is removed. *)
Fixpoint strip_punct (s : string) : string :=
  match s with
  | EmptyString => EmptyString
  | String c r =>
      match strip_punct r with
      | EmptyString => if is_punct c then EmptyString else String c EmptyString
      | r' => String c r'
      end
  end.


End JsString.

(* ================================================================== *)
(** ** Data model *)

Import JsObj JsString.
Local Open Scope string_scope.
Local Open Scope list_scope.

(** One enriched term as the query service returns it. *)
Record AnnotationRecord : Type := {
  term_id : string;
  term_name : string;
  p_value : jsnum;
  domain : string
}.

(** A cloud element [[str, [t1, ..., tn]]]. *)
Definition clel : Type := (string * list AnnotationRecord)%type.

(** The argument of the [sizer] and [colorer] callbacks. *)
Record renderAttrs : Type := {
  score : jsnum;
  scaling : jsnum;
  str : string;
  termdata : list AnnotationRecord
}.

(** The argument of the [scorer] callback. *)
Record scorerAttrs : Type := {
  scorer_str : string;
  scorer_termdata : list AnnotationRecord
}.

(** A value read from a score table, used as a number. *)
Definition to_number (p : prop jsnum) : jsnum :=
  match p with
  | Own x => x
  | Inherited | Undefined => NaN
  end.

(** *** d3 ordinal scales ([d3.scale.category10], [d3.scale.category20]) *)

Definition category10 : list string :=
  [ "#1f77b4"; "#ff7f0e"; "#2ca02c"; "#d62728"; "#9467bd";
    "#8c564b"; "#e377c2"; "#7f7f7f"; "#bcbd22"; "#17becf" ].

Definition category20 : list string :=
  [ "#1f77b4"; "#aec7e8"; "#ff7f0e"; "#ffbb78"; "#2ca02c";
    "#98df8a"; "#d62728"; "#ff9896"; "#9467bd"; "#c5b0d5";
    "#8c564b"; "#c49c94"; "#e377c2"; "#f7b6d2"; "#7f7f7f";
    "#c7c7c7"; "#bcbd22"; "#dbdb8d"; "#17becf"; "#9edae5" ].

(** An ordinal scale: the inputs seen so far, and the output range. *)
Record ordinal : Type := {
  scale_domain : list Z;
  scale_range : list string
}.

Fixpoint position (x : Z) (l : list Z) (i : nat) : option nat :=
  match l with
  | [] => None
  | y :: r => if Z.eqb x y then Some i else position x r (S i)
  end.

(** [scale(x)]: an unseen input is appended to the domain; the output is
    the range entry at the input's position, cyclically. *)
Definition scale_call (sc : ordinal) (x : Z) : string * ordinal :=
  let n := List.length (scale_range sc) in
  match position x (scale_domain sc) 0 with
  | Some i => (nth (i mod n) (scale_range sc) "", sc)
  | None =>
      let d := scale_domain sc ++ [x] in
      (nth ((List.length d - 1) mod n) (scale_range sc) "",
       {| scale_domain := d; scale_range := scale_range sc |})
  end.

(** The state the default colorers close over: the counter [filli] and
    the scale [fill20]. *)
Record colorState : Type := {
  filli : Z;
  fill20 : ordinal
}.

Definition colorer_t : Type :=
  colorState -> renderAttrs -> prop string * colorState.

(** *** The widget *)

Inductive callback : Type :=
| CbSizer (f : renderAttrs -> jsnum)
| CbColorer (f : colorer_t)
| CbDistiller (f : AnnotationRecord -> list string)
| CbScorer (f : scorerAttrs -> jsnum).

(** A constructed [BioJSVisGProfiler]: [container] is the number of
    elements the selector resolved to ([this.container.length]) and
    [stopwords] the table built from the stop word list. *)
Record BioJSVisGProfiler : Type := {
  container : nat;
  width : R;
  height : R;
  maxN : Z;
  maxTermLen : Z;
  warnings : bool;
  useTerms : bool;
  showLogo : bool;
  showInfo : bool;
  sizer : option (renderAttrs -> jsnum);
  colorer : option colorer_t;
  scorer : option (scorerAttrs -> jsnum);
  distiller : option (AnnotationRecord -> list string);
  stopwords : obj Z
}.

(** [$.each(this.stopwords, function(i, v) { swh[v] = 1; })]. *)
Definition stopword_table (english : list string) : obj Z :=
  fold_left (fun swh v => JsObj.set swh v 1%Z) english [].

(** The constructor applied to a selector resolving to [matched] elements
    and no other attribute: every option keeps its default. *)
Definition defaults (matched : nat) (english : list string)
  : BioJSVisGProfiler :=
  {| container := matched;
     width := 300; height := 300;
     maxN := 0; maxTermLen := 25;
     warnings := false; useTerms := false;
     showLogo := true; showInfo := true;
     sizer := None; colorer := None; scorer := None; distiller := None;
     stopwords := stopword_table english |}.

(* ================================================================== *)
(** ** Auxiliary routines *)

Definition _logBase (b x : jsnum) : jsnum :=
  js_div (Math_log x) (Math_log b).

Definition _capValue (x minx maxx : jsnum) : jsnum :=
  if js_lt x minx then minx
  else if js_lt maxx x then maxx
  else x.

(** *** Default sizers *)

Definition cap (s scaling : jsnum) : jsnum :=
  let minS := Fin 12 in
  let maxS := js_mul (Fin 72) scaling in
  _capValue s minS maxS.

Definition sizerWord (attrs : renderAttrs) : jsnum :=
  let score := score attrs in
  let scaling := scaling attrs in
  let s :=
    js_mul
      (js_mul (_logBase (Fin 2) (js_add (js_mul score (Fin 600)) (Fin 1)))
              (Fin 12))
      scaling in
  cap s scaling.

Definition sizerTerm (attrs : renderAttrs) : jsnum :=
  let score := score attrs in
  let scaling := scaling attrs in
  let s := js_mul (js_mul score (Fin 800)) scaling in
  cap s scaling.

(** *** Default colorers *)

Definition fresh (range : list string) : ordinal :=
  {| scale_domain := []; scale_range := range |}.

(** The table [domainColor], filled by four calls of a fresh [fill10]. *)
Definition domainColor : obj string :=
  let fill10 := fresh category10 in
  let '(bp, fill10) := scale_call fill10 1 in
  let '(mf, fill10) := scale_call fill10 2 in
  let '(cc, fill10) := scale_call fill10 3 in
  let '(multiple, _) := scale_call fill10 4 in
  [("BP", bp); ("MF", mf); ("CC", cc); ("multiple", multiple)].

Definition colorState0 : colorState :=
  {| filli := 0; fill20 := fresh category20 |}.

Definition colorerWord : colorer_t :=
  fun st attrs =>
    let i := (filli st + 1)%Z in
    let '(c, sc) := scale_call (fill20 st) i in
    (Own c, {| filli := i; fill20 := sc |}).

(** Truth value of the local [domain]: unset, or set to the empty string,
    counts as false. *)
Definition truthy_domain (d : option string) : bool :=
  match d with
  | None => false
  | Some s => negb (String.eqb s "")
  end.

(** The loop of [colorerTerm] from a given value of [domain]; the result
    is the final [(domain, multiple)]. *)
Fixpoint colorerTerm_each (ts : list AnnotationRecord) (d : option string)
  : option string * bool :=
  match ts with
  | [] => (d, false)
  | v :: r =>
      if negb (truthy_domain d) then colorerTerm_each r (Some (domain v))
      else
        match d with
        | Some s =>
            if negb (String.eqb s (domain v)) then (d, true)
            else colorerTerm_each r d
        | None => colorerTerm_each r d
        end
  end.

(** The key [domainColor[domain]] reads. *)
Definition property_key (d : option string) : string :=
  match d with
  | Some s => s
  | None => "undefined"
  end.

Definition colorerTerm_color (ts : list AnnotationRecord) : prop string :=
  let '(d, multiple) := colorerTerm_each ts None in
  if negb multiple then JsObj.get domainColor (property_key d)
  else JsObj.get domainColor "multiple".

Definition colorerTerm : colorer_t :=
  fun st attrs => (colorerTerm_color (termdata attrs), st).

(** *** Default distillers *)

Definition normalizeWord (w : string) : string :=
  let w := if negb (String.eqb w (toUpperCase w)) then toLowerCase w else w in
  strip_punct w.

(** Truth value of [this.stopwords[w]]. *)
Definition truthy_entry (p : prop Z) : bool :=
  match p with
  | Own v => negb (Z.eqb v 0)
  | Inherited => true
  | Undefined => false
  end.

Definition distillerWord (this : BioJSVisGProfiler) (r : AnnotationRecord)
  : list string :=
  fold_left
    (fun rt w =>
       let w := normalizeWord w in
       if negb (truthy_entry (JsObj.get (stopwords this) w))
          && Nat.ltb 1 (String.length w)
       then rt ++ [w] else rt)
    (split_spaces (term_name r)) [].

(** The horizontal ellipsis appended to a shortened term name. *)
Definition ellipsis : string :=
  String (ascii_of_N 226) (String (ascii_of_N 128) (String (ascii_of_N 166) "")).

(** [s.substr(0, len)]. *)
Definition substr0 (s : string) (len : Z) : string :=
  String.substring 0 (Z.to_nat len) s.

Definition distillerTerm (this : BioJSVisGProfiler) (r : AnnotationRecord)
  : list string :=
  let maxLen := maxTermLen this in
  let tstr := term_name r in
  let tstr :=
    if (maxLen <? Z.of_nat (String.length tstr))%Z
    then (substr0 tstr (maxLen - 1) ++ ellipsis)%string
    else tstr in
  [tstr].

(** *** Default scorer *)

Definition scorerWord (attrs : scorerAttrs) : jsnum :=
  fold_left
    (fun score t => js_add score (Math_abs (_logBase (Fin 10) (p_value t))))
    (scorer_termdata attrs) (Fin 0).

Definition scorerTerm : scorerAttrs -> jsnum := scorerWord.

(** *** Callback lookup *)

Definition _defaultCallbacks (this : BioJSVisGProfiler) : obj callback :=
  [ ("sizerWord", CbSizer sizerWord);
    ("sizerTerm", CbSizer sizerTerm);
    ("colorerWord", CbColorer colorerWord);
    ("colorerTerm", CbColorer colorerTerm);
    ("distillerWord", CbDistiller (distillerWord this));
    ("distillerTerm", CbDistiller (distillerTerm this));
    ("scorerWord", CbScorer scorerWord);
    ("scorerTerm", CbScorer scorerTerm) ].

Definition dquote : string := String (ascii_of_N 34) "".

(** No inherited property name ends in [Word] or [Term], so a lookup that
    finds no own property finds nothing callable. *)
Definition _getCallback (this : BioJSVisGProfiler) (name : string)
  : result callback :=
  let defcb := _defaultCallbacks this in
  let suffix := if useTerms this then "Term" else "Word" in
  let cbname := (name ++ suffix)%string in
  match JsObj.get defcb cbname with
  | Own r => Ok r
  | Inherited | Undefined =>
      Raise (Error ("No such callback: " ++ dquote ++ cbname ++ dquote)%string)
  end.

Definition not_callable {A} : result A :=
  Raise (TypeError "callback of another kind").

Definition as_sizer (c : callback) : result (renderAttrs -> jsnum) :=
  match c with CbSizer f => Ok f | _ => not_callable end.
Definition as_colorer (c : callback) : result colorer_t :=
  match c with CbColorer f => Ok f | _ => not_callable end.
Definition as_distiller (c : callback)
  : result (AnnotationRecord -> list string) :=
  match c with CbDistiller f => Ok f | _ => not_callable end.
Definition as_scorer (c : callback) : result (scorerAttrs -> jsnum) :=
  match c with CbScorer f => Ok f | _ => not_callable end.

(** [this.x || this._getCallback('x')]. *)
Definition configured {F} (this : BioJSVisGProfiler) (own : option F)
    (name : string) (as_kind : callback -> result F) : result F :=
  match own with
  | Some f => Ok f
  | None => cb <- _getCallback this name;; as_kind cb
  end.

(* ================================================================== *)
(** ** Normalizer: [_collapseClels] *)

(** One round of the loop: [h[str]] missing creates [[str, [t]]], an own
    entry gets [t] pushed, an inherited value has no [[1]] to push to. *)
Definition collapse_step (h : obj clel) (v : string * AnnotationRecord)
  : result (obj clel) :=
  let str := fst v in
  let t := snd v in
  match JsObj.get h str with
  | Undefined => Ok (JsObj.set h str (str, [t]))
  | Own e => Ok (JsObj.set h str (fst e, snd e ++ [t]))
  | Inherited => Raise (TypeError "Cannot read property 'push' of undefined")
  end.

Fixpoint collapse_each (clels : list (string * AnnotationRecord))
    (h : obj clel) : result (obj clel) :=
  match clels with
  | [] => Ok h
  | v :: r => h' <- collapse_step h v;; collapse_each r h'
  end.

Definition _collapseClels (clels : list (string * AnnotationRecord))
  : result (list clel) :=
  h <- collapse_each clels [];;
  Ok (JsObj.values h).

(* ================================================================== *)
(** ** Scorer: [_scoreClels] *)

(** First loop: the raw score of every element and their running total. *)
Definition score_step (scorer : scorerAttrs -> jsnum)
    (st : obj jsnum * jsnum) (cel : clel) : obj jsnum * jsnum :=
  let str := fst cel in
  let terms := snd cel in
  let score := scorer {| scorer_str := str; scorer_termdata := terms |} in
  (JsObj.set (fst st) str score, js_add (snd st) score).

(** Second loop: every own property is divided by the total.  [$.each]
    walks a plain object property by property; an object with a [length]
    property, which it would walk by index, is not modelled. *)
Definition normalize_step (totalScore : jsnum) (clelScores : obj jsnum)
    (k : string) : obj jsnum :=
  JsObj.set clelScores k (js_div (to_number (JsObj.get clelScores k)) totalScore).

Definition _scoreClels (this : BioJSVisGProfiler) (clels : list clel)
  : result (obj jsnum) :=
  scorer <- configured this (scorer this) "scorer" as_scorer;;
  let '(clelScores, totalScore) :=
    fold_left (score_step scorer) clels ([], Fin 0) in
  Ok (fold_left (normalize_step totalScore) (JsObj.keys clelScores) clelScores).

(* ================================================================== *)
(** ** Selector: [_sortAndCapClels] *)

(** What [Array.prototype.sort] guarantees for every comparator: the array
    holds the same elements afterwards.  Their order is the engine's to
    choose unless the comparator is a consistent comparison. *)
Record ArraySort : Type := {
  array_sort : forall A : Type, (A -> A -> Z) -> list A -> list A;
  array_sort_perm :
    forall (A : Type) (cmp : A -> A -> Z) (l : list A),
      Permutation l (array_sort cmp l)
}.

(** The comparator [function(a, b) { return s[a[0]] < s[b[0]]; }]; its
    boolean answer reaches the sort as the number 1 or 0. *)
Definition score_less (clelScores : obj jsnum) (a b : clel) : bool :=
  js_lt (to_number (JsObj.get clelScores (fst a)))
        (to_number (JsObj.get clelScores (fst b))).

Definition score_compare (clelScores : obj jsnum) (a b : clel) : Z :=
  Z.b2z (score_less clelScores a b).

(** [l.slice(0, e)]. *)
Definition slice0 {A} (l : list A) (e : Z) : list A :=
  let len := Z.of_nat (List.length l) in
  let final := if (e <? 0)%Z then Z.max (len + e) 0 else Z.min e len in
  firstn (Z.to_nat final) l.

Definition _sortAndCapClels (engine : ArraySort) (this : BioJSVisGProfiler)
    (clels : list clel) (clelScores : obj jsnum) : list clel :=
  let clels := array_sort engine (score_compare clelScores) clels in
  if negb (Z.eqb (maxN this) 0) then slice0 clels (maxN this) else clels.

(** *** Two sorting engines *)

Section Engines.
Variable A : Type.
Variable cmp : A -> A -> Z.

(** V8 from version 7.0 (ArrayTimSort).  [count_run] is its
    CountAndMakeRun on the whole array: the length of the leading run and
    whether it descends.  A run descends when the second element compares
    below the first; it ends at the first element that breaks it. *)
Fixpoint run_extend (descending : bool) (previous : A) (l : list A) : nat :=
  match l with
  | [] => 0
  | current :: r =>
      let order := cmp current previous in
      if descending
      then if (0 <=? order)%Z then 0
           else S (run_extend descending current r)
      else if (order <? 0)%Z then 0
           else S (run_extend descending current r)
  end.

Definition count_run (l : list A) : nat * bool :=
  match l with
  | [] => (0, false)
  | [_] => (1, false)
  | low :: high :: r =>
      let descending := (cmp high low <? 0)%Z in
      (2 + run_extend descending high r, descending)
  end.

(** BinaryInsertionSort: the place of [pivot] in the sorted prefix [a] is
    searched by halving; the search moves left only on an answer below
    zero. *)
Fixpoint binary_search (fuel : nat) (pivot : A) (a : list A)
    (left right : nat) : nat :=
  match fuel with
  | 0 => left
  | S fuel' =>
      if Nat.ltb left right then
        let mid := left + Nat.div2 (right - left) in
        match nth_error a mid with
        | Some m =>
            if (cmp pivot m <? 0)%Z
            then binary_search fuel' pivot a left mid
            else binary_search fuel' pivot a (mid + 1) right
        | None => left
        end
      else left
  end.

Definition binary_insert (a : list A) (pivot : A) : list A :=
  let n := List.length a in
  let i := binary_search (S n) pivot a 0 n in
  firstn i a ++ pivot :: skipn i a.

(** The leading run is made ascending, the remaining elements are
    inserted one by one.  This is the whole of ArrayTimSort below 64
    elements; on longer arrays V8 cuts and merges further runs, which is
    never reached when the first run spans the array. *)
Definition v8_sort (l : list A) : list A :=
  let '(n, descending) := count_run l in
  let run := firstn n l in
  let run := if descending then rev run else run in
  fold_left binary_insert (skipn n l) run.

(** Engines whose insertion sort moves an element left past every
    neighbour that compares above it (V8 before 7.0 on short arrays).
    [before] is the sorted prefix, nearest neighbour first. *)
Fixpoint insert_left (element : A) (before : list A) : list A :=
  match before with
  | [] => [element]
  | tmp :: r =>
      if (0 <? cmp tmp element)%Z then tmp :: insert_left element r
      else element :: before
  end.

Definition insertion_sort (l : list A) : list A :=
  rev (fold_left (fun before element => insert_left element before) l []).

End Engines.

(* ================================================================== *)
(** ** Attribute mapper: [_renderTransformStr] *)

(** An entry of the list handed to the layout. *)
Record word : Type := {
  text : string;
  size : jsnum;
  color : prop string;
  word_termdata : list AnnotationRecord
}.

Definition transform_step (sizer : renderAttrs -> jsnum) (colorer : colorer_t)
    (clelScores : obj jsnum) (scaling : jsnum)
    (acc : list word * colorState) (v : clel) : list word * colorState :=
  let str := fst v in
  let termdata := snd v in
  let score := to_number (JsObj.get clelScores str) in
  let cbattrs :=
    {| score := score; scaling := scaling; str := str; termdata := termdata |} in
  let size := sizer cbattrs in
  let '(color, st) := colorer (snd acc) cbattrs in
  (fst acc ++ [{| text := str; size := size; color := color;
                  word_termdata := termdata |}], st).

Definition _renderTransformStr (this : BioJSVisGProfiler) (clels : list clel)
    (clelScores : obj jsnum) (scaling : jsnum) : result (list word) :=
  sizer <- configured this (sizer this) "sizer" as_sizer;;
  colorer <- configured this (colorer this) "colorer" as_colorer;;
  Ok (fst (fold_left (transform_step sizer colorer clelScores scaling)
                     clels ([], colorState0))).

(* ================================================================== *)
(** ** Render passes *)

(** The parameters handed to the query service. *)
Record QueryAttrs : Type := {
  query : list string;
  organism : string
}.

(** The layout a pass starts: [cloud().size([w, h]).words(...)
    .padding(scaling * 3)...start()]. *)
Record layout : Type := {
  layout_size : R * R;
  layout_words : list word;
  layout_padding : jsnum;
  layout_warn : bool
}.

(** What a call does, in order: it throws, it issues the query and hands
    over the callback run on the response, or it starts the layout. *)
Inductive behaviour : Type :=
| Throw (e : exn)
| Query (attrs : QueryAttrs) (callback : list AnnotationRecord -> behaviour)
| StartLayout (l : layout).

Definition ContainerError : exn :=
  Error "the container parameter must specify a unique element".

Definition _renderCloud (engine : ArraySort) (this : BioJSVisGProfiler)
    (clels : list (string * AnnotationRecord)) : behaviour :=
  let w := width this in
  let h := height this in
  let scaling := Fin ((w + h) / 2 / 600) in
  if negb (Nat.eqb (container this) 1) then Throw ContainerError
  else
    match
      (clels <- _collapseClels clels;;
       clelScores <- _scoreClels this clels;;
       let clels := _sortAndCapClels engine this clels clelScores in
       words <- _renderTransformStr this clels clelScores scaling;;
       Ok words)
    with
    | Raise e => Throw e
    | Ok words =>
        StartLayout {| layout_size := (w, h);
                       layout_words := words;
                       layout_padding := js_mul scaling (Fin 3);
                       layout_warn := warnings this |}
    end.

Definition renderStored (engine : ArraySort) (this : BioJSVisGProfiler)
    (data : list AnnotationRecord) : behaviour :=
  match configured this (distiller this) "distiller" as_distiller with
  | Raise e => Throw e
  | Ok distiller =>
      let twords :=
        flat_map (fun r => map (fun str => (str, r)) (distiller r)) data in
      _renderCloud engine this twords
  end.

Definition render (engine : ArraySort) (this : BioJSVisGProfiler)
    (attrs : QueryAttrs) : behaviour :=
  Query attrs (fun data => renderStored engine this data).

(* ================================================================== *)
(** ** Vocabulary of the properties *)

(** *** Objects *)

(** Order of two keys by the array index they denote. *)
Definition index_le (a b : string) : Prop := (index_of a <= index_of b)%N.

(** *** Normalizer *)

(** The distinct members of a list, in the order of their first
    occurrences. *)
Fixpoint first_seen (l : list string) : list string :=
  match l with
  | [] => []
  | x :: r => x :: filter (fun y => negb (String.eqb y x)) (first_seen r)
  end.

(** The records paired with the text [s], in encounter order. *)
Definition records_of (s : string) (pairs : list (string * AnnotationRecord))
  : list AnnotationRecord :=
  map snd (filter (fun p => String.eqb (fst p) s) pairs).

(** The table the loop of [_collapseClels] builds from the empty object. *)
Definition collapsed (pairs : list (string * AnnotationRecord)) : obj clel :=
  map (fun s => (s, (s, records_of s pairs))) (first_seen (map fst pairs)).

(** The invariant of the Normalizer's output: texts are unique, none names
    an inherited property, every element has a record. *)
Definition CloudElements (clels : list clel) : Prop :=
  NoDup (map fst clels)
  /\ Forall (fun c => inherited (fst c) = false /\ snd c <> []) clels.

(** *** Scorer *)




(** Sum of a list of reals. *)
Definition Rsum (l : list R) : R := fold_right Rplus 0%R l.

(** A score table with the entries selected by [sel] divided by [total]. *)
Definition divided (total : jsnum) (sel : string -> bool) (o : obj jsnum)
  : obj jsnum :=
  map (fun e => (fst e, if sel (fst e) then js_div (snd e) total else snd e)) o.

(** The logarithm to base 10. *)
Definition log10 (x : R) : R := (ln x / ln 10)%R.

(** *** Selector *)

(** An element whose score is a finite number. *)
Definition finite_score (scores : obj jsnum) (c : clel) : Prop :=
  exists x, to_number (JsObj.get scores (fst c)) = Fin x.

(** A sorted prefix held last element first: no element is below one
    that comes after it in the list. *)
Definition ascending_back (A : Type) (lt : A -> A -> bool) (before : list A)
  : Prop :=
  StronglySorted (fun x y => lt y x = false) before.

(** *** Colorer *)

(** A domain tag names the branch of annotation a record comes from (BP,
    MF, CC, ...): it is not empty, and it is not the palette key kept for
    elements of several domains. *)
Definition domain_tag (d : string) : Prop := d <> "" /\ d <> "multiple".

(** The records span more than one domain. *)
Definition several_domains (ts : list AnnotationRecord) : Prop :=
  exists t1 t2, In t1 ts /\ In t2 ts /\ domain t1 <> domain t2.

(** *** Callbacks and words *)

(** The share of one record in the score. *)
Definition weight (t : AnnotationRecord) : jsnum :=
  Math_abs (_logBase (Fin 10) (p_value t)).


(** The names of the callbacks the code asks for. *)
Definition callback_names : list string :=
  ["sizer"; "colorer"; "distiller"; "scorer"].

(** The callbacks a pass uses. *)
Definition sizer_of (this : BioJSVisGProfiler) : renderAttrs -> jsnum :=
  match sizer this with
  | Some f => f
  | None => if useTerms this then sizerTerm else sizerWord
  end.

Definition colorer_of (this : BioJSVisGProfiler) : colorer_t :=
  match colorer this with
  | Some f => f
  | None => if useTerms this then colorerTerm else colorerWord
  end.

Definition distiller_of (this : BioJSVisGProfiler)
  : AnnotationRecord -> list string :=
  match distiller this with
  | Some f => f
  | None => if useTerms this then distillerTerm this else distillerWord this
  end.

(** The argument the callbacks get for an element. *)
Definition attrs_of (clelScores : obj jsnum) (scaling : jsnum) (v : clel)
  : renderAttrs :=
  {| score := to_number (JsObj.get clelScores (fst v)); scaling := scaling;
     str := fst v; termdata := snd v |}.

(** The words of the elements, the colorer's state threaded from [st]. *)
Fixpoint styled (sizer : renderAttrs -> jsnum) (colorer : colorer_t)
    (clelScores : obj jsnum) (scaling : jsnum) (st : colorState)
    (clels : list clel) : list word :=
  match clels with
  | [] => []
  | v :: r =>
      let attrs := attrs_of clelScores scaling v in
      {| text := fst v; size := sizer attrs;
         color := fst (colorer st attrs); word_termdata := snd v |}
      :: styled sizer colorer clelScores scaling (snd (colorer st attrs)) r
  end.

(** The state of the word colorer after [k] calls. *)
Definition colorState_after (k : nat) : colorState :=
  {| filli := Z.of_nat k;
     fill20 := {| scale_domain := map (fun j => (Z.of_nat j + 1)%Z) (seq 0 k);
                  scale_range := category20 |} |}.

(** *** Sample data *)

Definition sample (name : string) (p : R) (d : string) : AnnotationRecord :=
  {| term_id := "GO:0000001"; term_name := name; p_value := Fin p; domain := d |}.

Definition r_bp : AnnotationRecord := sample "cell cycle" (1 / 100) "BP".
Definition r_mf : AnnotationRecord := sample "DNA binding" (1 / 1000) "MF".
Definition r_one : AnnotationRecord := sample "cell cycle" 1 "BP".
Definition r_tenth : AnnotationRecord := sample "cell cycle" (1 / 10) "BP".

(** A widget with the cap [n] and every other option at its default. *)
Definition capped (n : Z) : BioJSVisGProfiler :=
  {| container := 1;
     width := 300; height := 300;
     maxN := n; maxTermLen := 25;
     warnings := false; useTerms := false;
     showLogo := true; showInfo := true;
     sizer := None; colorer := None; scorer := None; distiller := None;
     stopwords := [] |}.

Definition el_a : clel := ("a", [r_bp]).
Definition el_b : clel := ("b", [r_mf]).
Definition el_c : clel := ("c", [r_bp]).

Definition scores_ab : obj jsnum :=
  [("a", Fin (1 / 4)); ("b", Fin (3 / 4))].

Definition scores_abc : obj jsnum :=
  [("a", Fin (1 / 6)); ("b", Fin (1 / 2)); ("c", Fin (1 / 3))].

Definition attrs_swi : QueryAttrs :=
  {| query := ["swi4"; "swi6"; "mbp1"]; organism := "scerevisiae" |}.

(* ================================================================== *)
(** * Properties *)

(** ** Objects *)

Section ObjFacts.
Variable V : Type.
Implicit Types (o : obj V) (k : string) (v : V).

Lemma own_none_notin o k : own o k = None <-> ~ In k (map fst o).
Proof.
  induction o as [|[k' v'] o IH]; simpl.
  - tauto.
  - destruct (String.eqb_spec k k') as [->|Hne].
    + split; [discriminate | intros H; exfalso; apply H; now left].
    + rewrite IH. split.
      * intros H [E|I]; [now subst | now apply H].
      * intros H I. apply H. now right.
Qed.

Lemma own_some_in o k v : own o k = Some v -> In (k, v) o.
Proof.
  induction o as [|[k' v'] o IH]; simpl; [discriminate|].
  destruct (String.eqb_spec k k') as [->|Hne].
  - intros [= ->]. now left.
  - intros H. right. now apply IH.
Qed.

Lemma put_notin o k v : ~ In k (map fst o) -> put o k v = o ++ [(k, v)].
Proof.
  induction o as [|[k' v'] o IH]; simpl; intros H; [reflexivity|].
  destruct (String.eqb_spec k k') as [->|Hne]; [tauto|].
  rewrite IH; tauto.
Qed.

Lemma own_map (f : string -> V) (ks : list string) k :
  own (map (fun s => (s, f s)) ks) k = if in_dec string_dec k ks then Some (f k) else None.
Proof.
  induction ks as [|s ks IH]; simpl; [reflexivity|].
  destruct (String.eqb_spec k s) as [->|Hne].
  - destruct (string_dec s s); [reflexivity|congruence].
  - rewrite IH. destruct (string_dec s k); [now subst|].
    destruct (in_dec string_dec k ks); reflexivity.
Qed.

Lemma put_map (f : string -> V) (ks : list string) k v :
  NoDup ks -> In k ks ->
  put (map (fun s => (s, f s)) ks) k v
  = map (fun s => (s, if String.eqb s k then v else f s)) ks.
Proof.
  induction ks as [|s ks IH]; simpl; [tauto|].
  intros Hnd Hin. inversion Hnd as [|? ? Hs Hnd']; subst.
  destruct (String.eqb_spec k s) as [->|Hne].
  - rewrite String.eqb_refl. f_equal.
    apply map_ext_in. intros a Ha.
    destruct (String.eqb_spec a s) as [->|]; [contradiction|reflexivity].
  - destruct (String.eqb_spec s k) as [->|_]; [congruence|].
    f_equal. apply IH; [assumption|]. destruct Hin; [now subst|assumption].
Qed.

(** Enumeration visits every own property once. *)
Lemma insert_index_perm (e : string * V) l :
  Permutation (e :: l) (insert_index e l).
Proof.
  induction l as [|e' l IH]; simpl; [reflexivity|].
  destruct (index_of (fst e) <? index_of (fst e'))%N; [reflexivity|].
  rewrite perm_swap. now constructor.
Qed.

Lemma sort_index_perm (l : list (string * V)) : Permutation l (sort_index l).
Proof.
  induction l as [|e l IH]; simpl; [reflexivity|].
  rewrite <- insert_index_perm. now constructor.
Qed.

Lemma partition_perm (A : Type) (p : A -> bool) (l : list A) :
  Permutation l (filter p l ++ filter (fun x => negb (p x)) l).
Proof.
  induction l as [|x l IH]; simpl; [reflexivity|].
  destruct (p x); simpl.
  - now constructor.
  - rewrite <- Permutation_middle. now constructor.
Qed.

Lemma entries_perm o : Permutation o (entries o).
Proof.
  unfold entries. rewrite <- sort_index_perm.
  apply (partition_perm (fun e => is_index (fst e))).
Qed.

(** Without array indices among the keys, enumeration is creation order. *)
Lemma filter_none (A : Type) (p : A -> bool) (l : list A) :
  (forall x, In x l -> p x = false) -> filter p l = [].
Proof.
  induction l as [|x l IH]; simpl; intros H; [reflexivity|].
  rewrite (H x) by auto. apply IH. auto.
Qed.

Lemma filter_all (A : Type) (p : A -> bool) (l : list A) :
  (forall x, In x l -> p x = true) -> filter p l = l.
Proof.
  induction l as [|x l IH]; simpl; intros H; [reflexivity|].
  rewrite (H x) by auto. f_equal. apply IH. auto.
Qed.

Lemma entries_no_index o :
  (forall k, In k (map fst o) -> is_index k = false) -> entries o = o.
Proof.
  intros H. unfold entries.
  rewrite filter_none, filter_all; [reflexivity| |];
    intros e He; rewrite (H (fst e)); auto using in_map.
Qed.

Lemma insert_index_sorted (e : string * V) l :
  StronglySorted (fun a b => index_le (fst a) (fst b)) l ->
  StronglySorted (fun a b => index_le (fst a) (fst b)) (insert_index e l).
Proof.
  induction 1 as [|e' l Hs IH Hall]; simpl.
  - repeat constructor.
  - destruct (N.ltb_spec (index_of (fst e)) (index_of (fst e'))) as [Hlt|Hge].
    + constructor; [now constructor|].
      constructor; [unfold index_le; lia|].
      eapply Forall_impl; [|exact Hall].
      unfold index_le. intros a Ha. lia.
    + constructor; [assumption|].
      eapply Permutation_Forall; [apply insert_index_perm|].
      constructor; [unfold index_le; lia|assumption].
Qed.

Lemma sort_index_sorted (l : list (string * V)) :
  StronglySorted (fun a b => index_le (fst a) (fst b)) (sort_index l).
Proof.
  induction l as [|e l IH]; simpl; [constructor|].
  now apply insert_index_sorted.
Qed.

End ObjFacts.

(* ================================================================== *)
(** ** Normalizer *)

Lemma first_seen_in l s : In s (first_seen l) <-> In s l.
Proof.
  induction l as [|x l IH]; simpl; [reflexivity|].
  rewrite filter_In, IH.
  destruct (String.eqb_spec s x) as [->|Hne]; simpl.
  - split; intros _; now left.
  - split; [intros [E|[I _]]|intros [E|I]]; auto.
Qed.

Lemma first_seen_NoDup l : NoDup (first_seen l).
Proof.
  induction l as [|x l IH]; simpl; constructor.
  - rewrite filter_In, String.eqb_refl. simpl. intros [_ H]. discriminate.
  - now apply NoDup_filter.
Qed.

Lemma first_seen_snoc l s :
  first_seen (l ++ [s])
  = if in_dec string_dec s l then first_seen l else first_seen l ++ [s].
Proof.
  induction l as [|x l IH]; simpl; [reflexivity|].
  rewrite IH. destruct (string_dec x s) as [->|Hne].
  - destruct (in_dec string_dec s l) as [Hin|Hnin]; [reflexivity|].
    rewrite filter_app. simpl. rewrite String.eqb_refl. simpl.
    now rewrite app_nil_r.
  - destruct (in_dec string_dec s l) as [Hin|Hnin]; [reflexivity|].
    rewrite filter_app. simpl.
    destruct (String.eqb_spec s x) as [->|_]; [congruence|reflexivity].
Qed.

Lemma records_of_snoc s pairs v :
  records_of s (pairs ++ [v])
  = records_of s pairs ++ (if String.eqb (fst v) s then [snd v] else []).
Proof.
  unfold records_of. rewrite filter_app, map_app. simpl.
  destruct (String.eqb (fst v) s); reflexivity.
Qed.

Lemma records_of_length s pairs :
  List.length (records_of s pairs) = count_occ string_dec (map fst pairs) s.
Proof.
  unfold records_of. rewrite length_map.
  induction pairs as [|p pairs IH]; simpl; [reflexivity|].
  destruct (String.eqb_spec (fst p) s) as [E|Hne];
    destruct (string_dec (fst p) s); simpl; congruence.
Qed.

Lemma first_seen_length l : List.length (first_seen l) <= List.length l.
Proof.
  induction l as [|x l IH]; simpl; [lia|].
  pose proof (filter_length_le (fun y => negb (String.eqb y x)) (first_seen l)).
  lia.
Qed.

Lemma inherited_proto s : inherited s = false -> String.eqb s "__proto__" = false.
Proof.
  destruct (String.eqb_spec s "__proto__") as [->|]; [discriminate|reflexivity].
Qed.

Lemma collapse_each_snoc pairs v h :
  collapse_each (pairs ++ [v]) h
  = (h' <- collapse_each pairs h;; collapse_step h' v).
Proof.
  revert h. induction pairs as [|p pairs IH]; intros h; simpl.
  - destruct (collapse_step h v); reflexivity.
  - destruct (collapse_step h p); simpl; [apply IH|reflexivity].
Qed.

(** The loop builds [collapsed] whenever no text names an inherited
    property. *)
Lemma collapse_each_collapsed pairs :
  (forall p, In p pairs -> inherited (fst p) = false) ->
  collapse_each pairs [] = Ok (collapsed pairs).
Proof.
  induction pairs as [|[s t] pairs IH] using rev_ind; intros Hinh.
  - reflexivity.
  - rewrite collapse_each_snoc, IH
      by (intros p Hp; apply Hinh, in_or_app; now left).
    simpl. unfold collapse_step, JsObj.get, JsObj.set, collapsed. simpl fst; simpl snd.
    assert (Hs : inherited s = false)
      by (apply (Hinh (s, t)), in_or_app; right; now left).
    rewrite (inherited_proto _ Hs), own_map, Hs.
    rewrite map_app. simpl map. rewrite first_seen_snoc.
    destruct (in_dec string_dec s (first_seen (map fst pairs))) as [Hin|Hnin];
      destruct (in_dec string_dec s (map fst pairs)) as [Hin'|Hnin'];
      try (exfalso; rewrite first_seen_in in *; tauto).
    + simpl fst; simpl snd. f_equal.
      rewrite put_map by (auto using first_seen_NoDup).
      apply map_ext. intros a. rewrite records_of_snoc. simpl.
      rewrite (String.eqb_sym s a).
      destruct (String.eqb_spec a s) as [->|_]; [reflexivity|].
      now rewrite app_nil_r.
    + f_equal. rewrite put_notin.
      2:{ rewrite map_map. simpl. now rewrite map_id. }
      rewrite map_app. simpl. rewrite records_of_snoc. simpl.
      rewrite String.eqb_refl. f_equal.
      * apply map_ext_in. intros a Ha. rewrite records_of_snoc. simpl.
        destruct (String.eqb_spec s a) as [->|_]; [contradiction|].
        now rewrite app_nil_r.
      * f_equal. f_equal. f_equal.
        unfold records_of.
        rewrite filter_none; [reflexivity|].
        intros p Hp. destruct (String.eqb_spec (fst p) s) as [<-|]; [|reflexivity].
        exfalso. apply Hnin'. now apply in_map.
Qed.

Lemma collapsed_keys pairs : map fst (collapsed pairs) = first_seen (map fst pairs).
Proof. unfold collapsed. rewrite map_map. simpl. apply map_id. Qed.

Lemma collapsed_entry pairs e :
  In e (collapsed pairs) -> snd e = (fst e, records_of (fst e) pairs).
Proof.
  unfold collapsed. rewrite in_map_iff. intros [s [<- _]]. reflexivity.
Qed.

Lemma filter_keyed (V : Type) (f : string -> V) (p : string -> bool) ks :
  filter (fun e => p (fst e)) (map (fun s => (s, f s)) ks)
  = map (fun s => (s, f s)) (filter p ks).
Proof.
  induction ks as [|s ks IH]; simpl; [reflexivity|].
  destruct (p s); simpl; now rewrite IH.
Qed.

Lemma StronglySorted_map_fst (V : Type) (R : string -> string -> Prop)
    (l : list (string * V)) :
  StronglySorted (fun a b => R (fst a) (fst b)) l ->
  StronglySorted R (map fst l).
Proof.
  induction 1 as [|e l Hs IH Hall]; simpl; constructor; [assumption|].
  rewrite Forall_forall in *. intros k Hk.
  apply in_map_iff in Hk. destruct Hk as [e' [<- He']]. now apply Hall.
Qed.

Lemma values_texts pairs :
  map fst (values (collapsed pairs)) = map fst (entries (collapsed pairs)).
Proof.
  unfold values. rewrite map_map. apply map_ext_in. intros e He.
  rewrite (collapsed_entry pairs e); [reflexivity|].
  eapply Permutation_in; [symmetry; apply entries_perm|exact He].
Qed.

(** What the Normalizer returns when its loop succeeds. *)
Lemma collapsed_values pairs :
  NoDup (map fst (values (collapsed pairs)))
  /\ (forall s, In s (map fst (values (collapsed pairs))) <-> In s (map fst pairs))
  /\ (forall s ts, In (s, ts) (values (collapsed pairs)) ->
         ts = records_of s pairs).
Proof.
  pose proof (entries_perm (collapsed pairs)) as Hperm.
  assert (Hkeys : Permutation (first_seen (map fst pairs))
                              (map fst (values (collapsed pairs)))).
  { rewrite values_texts, <- collapsed_keys. now apply Permutation_map. }
  split; [|split].
  - eapply Permutation_NoDup; [exact Hkeys|apply first_seen_NoDup].
  - intros s. rewrite <- (first_seen_in (map fst pairs)).
    split; apply Permutation_in; [symmetry|]; exact Hkeys.
  - intros s ts Hin. unfold values in Hin. apply in_map_iff in Hin.
    destruct Hin as [e [He Hine]].
    assert (Hc : In e (collapsed pairs))
      by (eapply Permutation_in; [symmetry; exact Hperm|exact Hine]).
    rewrite (collapsed_entry pairs e Hc) in He. now injection He as <- <-.
Qed.

Lemma put_keys (V : Type) (o : obj V) k v x :
  In x (map fst (put o k v)) -> x = k \/ In x (map fst o).
Proof.
  induction o as [|[k' v'] o IH]; simpl.
  - intros [<-|[]]. now left.
  - destruct (String.eqb k k'); simpl.
    + intros [<-|H]; auto.
    + intros [<-|H]; auto. destruct (IH H); auto.
Qed.

(** A text that names an inherited property and is not yet in the table
    makes the round fail with a [TypeError]. *)
Lemma collapse_step_inherited h s t :
  own h s = None -> inherited s = true ->
  exists e, collapse_step h (s, t) = Raise e.
Proof.
  intros Ho Hi. unfold collapse_step, JsObj.get. simpl. rewrite Ho, Hi.
  eexists. reflexivity.
Qed.

(** C5, amended: for every ordered sequence of (text, record) pairs in
    which no text is the name of a property inherited from
    [Object.prototype], the Normalizer returns exactly one element per
    distinct text; each element's records are, in encounter order, exactly
    the records paired with its text (as many as the text occurs), so the
    output is no longer than the input; texts that are array indices come
    first, in ascending numeric order, followed by the other texts in
    first-seen order; when no text is an array index the output is in
    first-seen order. *)
Theorem collapseClels_spec (pairs : list (string * AnnotationRecord)) :
  (forall p, In p pairs -> inherited (fst p) = false) ->
  exists out,
    _collapseClels pairs = Ok out
    /\ NoDup (map fst out)
    /\ (forall s, In s (map fst out) <-> In s (map fst pairs))
    /\ (forall s ts, In (s, ts) out ->
          ts = records_of s pairs
          /\ List.length ts = count_occ string_dec (map fst pairs) s)
    /\ List.length out <= List.length pairs
    /\ (exists idx,
          map fst out
          = idx ++ filter (fun s => negb (is_index s)) (first_seen (map fst pairs))
          /\ Permutation idx (filter is_index (first_seen (map fst pairs)))
          /\ StronglySorted index_le idx)
    /\ ((forall p, In p pairs -> is_index (fst p) = false) ->
        map fst out = first_seen (map fst pairs)).
Proof.
  intros Hinh. exists (values (collapsed pairs)).
  unfold _collapseClels. rewrite (collapse_each_collapsed pairs Hinh). simpl.
  pose proof (entries_perm (collapsed pairs)) as Hperm.
  destruct (collapsed_values pairs) as [Hnd [Hin Hrec]].
  split; [reflexivity|]. split; [|split; [|split; [|split; [|split]]]].
  - exact Hnd.
  - exact Hin.
  - intros s ts H. split; [now apply Hrec|].
    rewrite (Hrec s ts H). apply records_of_length.
  - unfold values. rewrite length_map, <- (Permutation_length Hperm).
    unfold collapsed. rewrite length_map.
    etransitivity; [apply first_seen_length|]. now rewrite length_map.
  - exists (map fst (sort_index
               (filter (fun e => is_index (fst e)) (collapsed pairs)))).
    split; [|split].
    + rewrite values_texts. unfold entries. rewrite map_app. f_equal.
      unfold collapsed. rewrite (filter_keyed _ (fun s => negb (is_index s))).
      rewrite map_map. simpl. apply map_id.
    + rewrite <- sort_index_perm. unfold collapsed.
      rewrite (filter_keyed _ is_index), map_map. simpl. now rewrite map_id.
    + apply StronglySorted_map_fst, sort_index_sorted.
  - intros Hidx. rewrite values_texts, entries_no_index.
    + apply collapsed_keys.
    + intros k Hk. rewrite collapsed_keys, first_seen_in in Hk.
      apply in_map_iff in Hk. destruct Hk as [p [<- Hp]]. now apply Hidx.
Qed.

(** The amended claim C5 at the pairs [swi4, swi6, swi4]. *)
Lemma collapseClels_spec_witness :
  exists out,
    _collapseClels [("swi4", r_bp); ("swi6", r_bp); ("swi4", r_mf)] = Ok out
    /\ map fst out = ["swi4"; "swi6"].
Proof.
  destruct (collapseClels_spec [("swi4", r_bp); ("swi6", r_bp); ("swi4", r_mf)])
    as [out [Hout [_ [_ [_ [_ [_ Hord]]]]]]].
  - intros p [<-|[<-|[<-|[]]]]; reflexivity.
  - exists out. split; [exact Hout|]. apply Hord.
    intros p [<-|[<-|[<-|[]]]]; reflexivity.
Defined.

(** C5 as stated fails: the text [10], seen second, comes out first. *)
Lemma collapseClels_index_text_first :
  exists out,
    _collapseClels [("b", r_bp); ("10", r_mf)] = Ok out
    /\ out = [("10", [r_mf]); ("b", [r_bp])]
    /\ map fst out <> first_seen (map fst [("b", r_bp); ("10", r_mf)]).
Proof.
  eexists. split; [reflexivity|]. split; [reflexivity|]. discriminate.
Qed.

(** A text naming an inherited property stops the pass. *)
Lemma collapseClels_constructor :
  _collapseClels [("constructor", r_bp)]
  = Raise (TypeError "Cannot read property 'push' of undefined").
Proof. reflexivity. Qed.

(** A text that names an inherited property stops the loop. *)
Lemma collapse_each_raises pairs : forall h,
  (forall k, In k (map fst h) -> inherited k = false) ->
  (exists p, In p pairs /\ inherited (fst p) = true) ->
  exists e, collapse_each pairs h = Raise e.
Proof.
  induction pairs as [|v pairs IH]; intros h Hh [p [Hp Hi]]; [contradiction|].
  simpl. unfold collapse_step, JsObj.get.
  destruct (inherited (fst v)) eqn:Hv.
  - destruct (own h (fst v)) as [e|] eqn:Ho.
    + apply own_some_in in Ho. apply (in_map fst) in Ho. simpl in Ho.
      rewrite (Hh _ Ho) in Hv. discriminate.
    + eexists. reflexivity.
  - assert (Hp' : exists p, In p pairs /\ inherited (fst p) = true).
    { destruct Hp as [->|Hp]; [congruence|]. now exists p. }
    assert (Hput : forall e k, In k (map fst (JsObj.set h (fst v) e)) ->
                     inherited k = false).
    { intros e k Hk. unfold JsObj.set in Hk.
      destruct (String.eqb (fst v) "__proto__"); [now apply Hh|].
      destruct (put_keys _ _ _ _ Hk) as [->|Hk']; [exact Hv|now apply Hh]. }
    destruct (own h (fst v)) as [e|]; simpl; apply IH; auto; apply Hput.
Qed.

(** The Normalizer's output has the invariant. *)
Lemma collapseClels_CloudElements pairs out :
  _collapseClels pairs = Ok out -> CloudElements out.
Proof.
  intros Hout.
  assert (Hinh : forall p, In p pairs -> inherited (fst p) = false).
  { intros p Hp. destruct (inherited (fst p)) eqn:E; [|reflexivity].
    destruct (collapse_each_raises pairs [] (fun k H => match H with end)
                (ex_intro _ p (conj Hp E))) as [e He].
    unfold _collapseClels in Hout. rewrite He in Hout. discriminate. }
  unfold _collapseClels in Hout.
  rewrite (collapse_each_collapsed pairs Hinh) in Hout. simpl in Hout.
  injection Hout as <-.
  destruct (collapsed_values pairs) as [Hnd [Hin Hrec]].
  split; [exact Hnd|]. apply Forall_forall. intros [s ts] Hc.
  assert (Hs : In s (map fst pairs))
    by (apply Hin; change s with (fst (s, ts)); now apply in_map).
  simpl. split.
  - apply in_map_iff in Hs. destruct Hs as [p [<- Hp]]. now apply Hinh.
  - rewrite (Hrec s ts Hc). intros E.
    pose proof (records_of_length s pairs) as Hlen. rewrite E in Hlen.
    simpl in Hlen. symmetry in Hlen.
    apply (count_occ_not_In string_dec) in Hlen. contradiction.
Qed.

(* ================================================================== *)
(** ** Scorer *)

Local Open Scope R_scope.




Lemma divided_keys total sel o : map fst (divided total sel o) = map fst o.
Proof. unfold divided. rewrite map_map. reflexivity. Qed.






Lemma fold_add_Fin (l : list R) (t : R) :
  fold_left js_add (map Fin l) (Fin t) = Fin (t + Rsum l).
Proof.
  revert t. induction l as [|x l IH]; intros t; simpl.
  - f_equal. lra.
  - rewrite IH. f_equal. lra.
Qed.


Lemma js_div_Fin (x y : R) : y <> 0 -> js_div (Fin x) (Fin y) = Fin (x / y).
Proof. intros H. simpl. destruct (Req_dec_T y 0); [contradiction|reflexivity]. Qed.








(** *** Logarithms *)

Lemma ln_gt_0 (b : R) : 1 < b -> 0 < ln b.
Proof. intros H. rewrite <- ln_1. apply ln_increasing; lra. Qed.

Lemma Math_log_Fin (x : R) : 0 < x -> Math_log (Fin x) = Fin (ln x).
Proof.
  intros H. simpl. destruct (Rlt_dec x 0); [lra|].
  destruct (Req_dec_T x 0); [lra|reflexivity].
Qed.

Lemma logBase_Fin (b x : R) :
  1 < b -> 0 < x -> _logBase (Fin b) (Fin x) = Fin (ln x / ln b).
Proof.
  intros Hb Hx. unfold _logBase.
  rewrite !Math_log_Fin by lra. apply js_div_Fin.
  pose proof (ln_gt_0 Hb). lra.
Qed.

Lemma log10_spec (x : R) : 0 < x -> Rpower 10 (log10 x) = x.
Proof.
  intros H. unfold Rpower, log10.
  replace (ln x / ln 10 * ln 10) with (ln x).
  - now apply exp_ln.
  - field. assert (0 < ln 10) by (apply ln_gt_0; lra). lra.
Qed.

Lemma log10_tenth : log10 (1 / 10) = -1.
Proof.
  unfold log10. replace (1 / 10) with (/ 10) by lra.
  rewrite ln_Rinv by lra. field.
  assert (0 < ln 10) by (apply ln_gt_0; lra). lra.
Qed.

Lemma Rabs_m1 : Rabs (-1) = 1.
Proof. unfold Rabs. destruct (Rcase_abs (-1)); lra. Qed.

Lemma log10_one : log10 1 = 0.
Proof. unfold log10. rewrite ln_1. unfold Rdiv. ring. Qed.

Lemma fold_scorer (g : AnnotationRecord -> jsnum) ts (a : jsnum) :
  fold_left (fun score t => js_add score (g t)) ts a
  = fold_left js_add (map g ts) a.
Proof.
  revert a. induction ts as [|t ts IH]; intros a; simpl; [reflexivity|apply IH].
Qed.

(** C9: for every element, the default scorer, which is the same function
    in word mode and in term mode, returns the sum over the element's
    records of the absolute value of the base-10 logarithm of the record's
    p-value. *)
Theorem scorer_sum_abs_log10 this (attrs : scorerAttrs) (ps : list R) :
  map p_value (scorer_termdata attrs) = map Fin ps ->
  Forall (fun p => 0 < p) ps ->
  _getCallback this "scorer" = Ok (CbScorer scorerWord)
  /\ scorerTerm = scorerWord
  /\ scorerWord attrs
     = js_sum (map (fun t => Math_abs (_logBase (Fin 10) (p_value t)))
                   (scorer_termdata attrs))
  /\ scorerWord attrs = Fin (Rsum (map (fun p => Rabs (log10 p)) ps)).
Proof.
  intros Hps Hpos.
  split; [unfold _getCallback; destruct (useTerms this); reflexivity|].
  split; [reflexivity|]. unfold scorerWord. rewrite fold_scorer.
  split; [reflexivity|].
  rewrite <- (map_map p_value (fun p => Math_abs (_logBase (Fin 10) p))), Hps.
  rewrite map_map.
  rewrite (map_ext_in _ (fun p => Fin (Rabs (log10 p)))).
  - rewrite <- (map_map (fun p => Rabs (log10 p)) Fin), fold_add_Fin.
    f_equal. lra.
  - intros p Hp. rewrite Forall_forall in Hpos.
    rewrite logBase_Fin by (auto; lra). reflexivity.
Qed.

(** C9 at an element with the p-values 1/10 and 1: its score is 1. *)
Lemma scorer_sum_abs_log10_witness :
  scorerWord {| scorer_str := "cycle";
                scorer_termdata := [sample "cell cycle" (1 / 10) "BP"; r_one] |}
  = Fin 1.
Proof.
  destruct (@scorer_sum_abs_log10 (defaults 1 [])
              {| scorer_str := "cycle";
                 scorer_termdata := [sample "cell cycle" (1 / 10) "BP"; r_one] |}
              [1 / 10; 1]) as [_ [_ [_ H]]].
  - reflexivity.
  - repeat constructor; lra.
  - rewrite H. simpl. rewrite log10_tenth, log10_one, Rabs_R0, Rabs_m1.
    f_equal. lra.
Defined.

(** *** The Scorer on sample elements *)





(* ================================================================== *)
(** ** Default sizers *)

Lemma capValue_Fin (s lo hi : R) :
  lo <= hi ->
  exists r, _capValue (Fin s) (Fin lo) (Fin hi) = Fin r /\ lo <= r <= hi.
Proof.
  intros H. unfold _capValue. simpl.
  destruct (Rlt_dec s lo).
  - exists lo. split; [reflexivity|lra].
  - destruct (Rlt_dec hi s).
    + exists hi. split; [reflexivity|lra].
    + exists s. split; [reflexivity|lra].
Qed.

Lemma sizerWord_Fin (x sc : R) s ts :
  0 <= x ->
  sizerWord {| score := Fin x; scaling := Fin sc; str := s; termdata := ts |}
  = cap (Fin (ln (x * 600 + 1) / ln 2 * 12 * sc)) (Fin sc).
Proof.
  intros H. unfold sizerWord. simpl score; simpl scaling.
  replace (js_add (js_mul (Fin x) (Fin 600)) (Fin 1)) with (Fin (x * 600 + 1))
    by reflexivity.
  rewrite logBase_Fin by lra. reflexivity.
Qed.

(** C7, amended: for every score in [0,1] and every scaling constant of at
    least 1/6, which is when 12 does not exceed 72 x scaling, the default
    sizers of word mode and of term mode return a value in the interval
    [12, 72 x scaling]. *)
Theorem default_sizers_clamped (x sc : R) (s : string)
    (ts : list AnnotationRecord) :
  0 <= x <= 1 ->
  1 / 6 <= sc ->
  (exists r,
     sizerWord {| score := Fin x; scaling := Fin sc; str := s; termdata := ts |}
     = Fin r /\ 12 <= r <= 72 * sc)
  /\ (exists r,
        sizerTerm {| score := Fin x; scaling := Fin sc; str := s; termdata := ts |}
        = Fin r /\ 12 <= r <= 72 * sc).
Proof.
  intros Hx Hsc. split.
  - rewrite sizerWord_Fin by lra. apply capValue_Fin. lra.
  - unfold sizerTerm, cap. simpl. apply capValue_Fin. lra.
Qed.

(** The amended claim C7 at score 1/2 in a 300 x 300 container. *)
Lemma default_sizers_clamped_witness :
  exists r,
    sizerTerm {| score := Fin (1 / 2); scaling := Fin (1 / 2);
                 str := "cycle"; termdata := [r_bp] |} = Fin r
    /\ 12 <= r <= 72 * (1 / 2).
Proof.
  apply (@default_sizers_clamped (1 / 2) (1 / 2) "cycle" [r_bp]); lra.
Defined.

(** C7 as stated fails: in a 60 x 60 container the scaling is 1/10, the
    sizer answers 12 and the interval ends at 7.2. *)
Lemma sizerTerm_small_container :
  sizerTerm {| score := Fin 0; scaling := Fin (1 / 10);
               str := "cycle"; termdata := [r_bp] |} = Fin 12
  /\ ~ (12 <= 72 * (1 / 10)).
Proof.
  split; [|lra]. unfold sizerTerm, cap, _capValue. simpl.
  destruct (Rlt_dec (0 * 800 * (1 / 10)) 12) as [_|H]; [reflexivity|].
  exfalso. lra.
Qed.

(* ================================================================== *)
(** ** Default term colorer *)

Local Open Scope string_scope.
Local Open Scope list_scope.

Lemma colorerTerm_each_set ts s :
  s <> "" ->
  colorerTerm_each ts (Some s)
  = (Some s, negb (forallb (fun t => String.eqb s (domain t)) ts)).
Proof.
  intros Hs. induction ts as [|v ts IH]; simpl; [reflexivity|].
  destruct (String.eqb_spec s "") as [E|_]; [contradiction|]. simpl.
  destruct (String.eqb s (domain v)); simpl; [exact IH|reflexivity].
Qed.

Lemma colorerTerm_color_cons v ts :
  domain v <> "" ->
  colorerTerm_color (v :: ts)
  = if forallb (fun t => String.eqb (domain v) (domain t)) ts
    then JsObj.get domainColor (domain v)
    else JsObj.get domainColor "multiple".
Proof.
  intros Hv. unfold colorerTerm_color. simpl colorerTerm_each.
  rewrite colorerTerm_each_set by assumption.
  destruct (forallb _ ts); reflexivity.
Qed.

Lemma domainColor_multiple : JsObj.get domainColor "multiple" = Own "#d62728".
Proof. reflexivity. Qed.

Lemma domainColor_distinct d :
  d <> "multiple" -> JsObj.get domainColor d <> JsObj.get domainColor "multiple".
Proof.
  intros Hd. rewrite domainColor_multiple. unfold JsObj.get, domainColor.
  simpl own.
  destruct (String.eqb d "BP"); [discriminate|].
  destruct (String.eqb d "MF"); [discriminate|].
  destruct (String.eqb d "CC"); [discriminate|].
  destruct (String.eqb_spec d "multiple"); [contradiction|].
  destruct (inherited d); discriminate.
Qed.

(** C8: for every element with a non-empty records list, the default
    term-mode colorer returns the palette colour keyed by the common
    domain tag when all records share one domain, and returns the
    distinguished multiple colour exactly when the records span more than
    one distinct domain. *)
Theorem colorerTerm_by_domain (st : colorState) (attrs : renderAttrs) :
  termdata attrs <> [] ->
  Forall (fun t => domain_tag (domain t)) (termdata attrs) ->
  snd (colorerTerm st attrs) = st
  /\ (forall d, Forall (fun t => domain t = d) (termdata attrs) ->
        fst (colorerTerm st attrs) = JsObj.get domainColor d)
  /\ (fst (colorerTerm st attrs) = JsObj.get domainColor "multiple"
      <-> several_domains (termdata attrs)).
Proof.
  intros Hne Htags. unfold colorerTerm. simpl fst; simpl snd.
  destruct (termdata attrs) as [|v ts]; [contradiction|]. clear Hne.
  inversion Htags as [|? ? [Hv Hvm] Hts]; subst.
  rewrite colorerTerm_color_cons by assumption.
  split; [reflexivity|].
  destruct (forallb (fun t => String.eqb (domain v) (domain t)) ts) eqn:Hall.
  - rewrite forallb_forall in Hall.
    assert (Hsame : forall t, In t (v :: ts) -> domain t = domain v).
    { intros t [<-|Ht]; [reflexivity|].
      symmetry. apply String.eqb_eq. now apply Hall. }
    split.
    + intros d Hd. inversion Hd; subst. reflexivity.
    + split.
      * intros E. exfalso. now apply (domainColor_distinct Hvm).
      * intros [t1 [t2 [H1 [H2 Hne]]]]. exfalso. apply Hne.
        now rewrite (Hsame t1 H1), (Hsame t2 H2).
  - assert (Hsev : several_domains (v :: ts)).
    { apply Bool.not_true_iff_false in Hall.
      destruct (existsb (fun t => negb (String.eqb (domain v) (domain t))) ts)
        eqn:Hex.
      - apply existsb_exists in Hex. destruct Hex as [t [Ht Hd]].
        exists v, t. split; [now left|]. split; [now right|].
        intros E. rewrite E, String.eqb_refl in Hd. discriminate.
      - exfalso. apply Hall. apply forallb_forall. intros t Ht.
        destruct (String.eqb (domain v) (domain t)) eqn:E; [reflexivity|].
        assert (existsb (fun t => negb (String.eqb (domain v) (domain t))) ts
                = true) as Hc
          by (apply existsb_exists; exists t; now rewrite E).
        congruence. }
    split.
    + intros d Hd. exfalso. destruct Hsev as [t1 [t2 [H1 [H2 Hne]]]].
      rewrite Forall_forall in Hd. apply Hne.
      now rewrite (Hd t1 H1), (Hd t2 H2).
    + split; [intros _; exact Hsev|reflexivity].
Qed.

(** C8 at an element with a BP and an MF record: the multiple colour. *)
Lemma colorerTerm_by_domain_witness :
  fst (colorerTerm colorState0
         {| score := Fin (1 / 2); scaling := Fin (1 / 2); str := "cycle";
            termdata := [r_bp; r_mf] |})
  = Own "#d62728".
Proof.
  destruct (@colorerTerm_by_domain colorState0
         {| score := Fin (1 / 2); scaling := Fin (1 / 2); str := "cycle";
            termdata := [r_bp; r_mf] |}) as [_ [_ [_ H]]].
  - discriminate.
  - repeat constructor; discriminate.
  - rewrite H; [reflexivity|].
    exists r_bp, r_mf. simpl. split; [now left|]. split; [auto|discriminate].
Defined.

(** Outside the domain tags: a leading record with an empty tag is passed
    over, and the tag [multiple] reads the multiple colour. *)
Lemma colorerTerm_empty_tag :
  colorerTerm_color [sample "a" 1 ""; r_bp] = JsObj.get domainColor "BP".
Proof. reflexivity. Qed.

Lemma colorerTerm_multiple_tag :
  colorerTerm_color [sample "a" 1 "multiple"] = JsObj.get domainColor "multiple".
Proof. reflexivity. Qed.

(* ================================================================== *)
(** ** Default word distiller *)

Lemma own_put_same (V : Type) (o : obj V) k v : own (put o k v) k = Some v.
Proof.
  induction o as [|[k' v'] o IH]; simpl.
  - now rewrite String.eqb_refl.
  - destruct (String.eqb_spec k k') as [->|Hne]; simpl.
    + now rewrite String.eqb_refl.
    + destruct (String.eqb_spec k k'); [contradiction|exact IH].
Qed.

Lemma own_put_other (V : Type) (o : obj V) k k' v :
  k' <> k -> own (put o k v) k' = own o k'.
Proof.
  intros Hne. induction o as [|[k0 v0] o IH]; simpl.
  - destruct (String.eqb_spec k' k); [contradiction|reflexivity].
  - destruct (String.eqb_spec k k0) as [->|Hk]; simpl.
    + destruct (String.eqb_spec k' k0); [contradiction|reflexivity].
    + destruct (String.eqb k' k0); [reflexivity|exact IH].
Qed.

(** Every word of the list is in the table, with the value 1. *)
Lemma stopword_fold_own l : forall (h : obj Z) w,
  w <> "__proto__" ->
  own h w = Some 1%Z \/ In w l ->
  own (fold_left (fun swh v => JsObj.set swh v 1%Z) l h) w = Some 1%Z.
Proof.
  induction l as [|v l IH]; intros h w Hw H; simpl.
  - destruct H as [H|[]]. exact H.
  - apply IH; [exact Hw|]. unfold JsObj.set.
    destruct (String.eqb_spec v "__proto__") as [->|Hv].
    + destruct H as [H|[E|H]]; auto. congruence.
    + destruct (string_dec w v) as [->|Hne].
      * left. apply own_put_same.
      * rewrite own_put_other by assumption.
        destruct H as [H|[E|H]]; auto. congruence.
Qed.

Lemma stopword_is_truthy english w :
  In w english -> truthy_entry (JsObj.get (stopword_table english) w) = true.
Proof.
  intros Hin. unfold JsObj.get.
  destruct (string_dec w "__proto__") as [->|Hw].
  - destruct (own (stopword_table english) "__proto__") as [v|] eqn:E;
      [|reflexivity].
    exfalso. revert E. unfold stopword_table.
    assert (G : forall l (h : obj Z), own h "__proto__" = None ->
              own (fold_left (fun swh v => JsObj.set swh v 1%Z) l h) "__proto__"
              = None).
    { induction l as [|x l IH]; intros h Hh; simpl; [exact Hh|].
      apply IH. unfold JsObj.set.
      destruct (String.eqb_spec x "__proto__") as [->|Hx]; [exact Hh|].
      rewrite own_put_other; [exact Hh|congruence]. }
    rewrite G; [discriminate|reflexivity].
  - unfold stopword_table. rewrite stopword_fold_own; auto.
Qed.










(* ================================================================== *)
(** ** Selector *)

Section EngineFacts.
Variable A : Type.
Variable cmp : A -> A -> Z.

Lemma binary_insert_perm (a : list A) (pivot : A) :
  Permutation (pivot :: a) (binary_insert cmp a pivot).
Proof.
  unfold binary_insert.
  set (i := binary_search cmp (S (List.length a)) pivot a 0 (List.length a)).
  rewrite <- (firstn_skipn i a) at 1. apply Permutation_middle.
Qed.

Lemma fold_binary_insert_perm (rest run : list A) :
  Permutation (run ++ rest) (fold_left (binary_insert cmp) rest run).
Proof.
  revert run. induction rest as [|x rest IH]; intros run; simpl.
  - now rewrite app_nil_r.
  - rewrite <- IH, <- binary_insert_perm. symmetry. apply Permutation_middle.
Qed.

Lemma v8_sort_perm (l : list A) : Permutation l (v8_sort cmp l).
Proof.
  unfold v8_sort. destruct (count_run cmp l) as [n descending].
  rewrite <- fold_binary_insert_perm.
  rewrite <- (firstn_skipn n l) at 1. apply Permutation_app_tail.
  destruct descending; [apply Permutation_rev|reflexivity].
Qed.

Lemma insert_left_perm (e : A) (before : list A) :
  Permutation (e :: before) (insert_left cmp e before).
Proof.
  induction before as [|tmp r IH]; simpl; [reflexivity|].
  destruct (0 <? cmp tmp e)%Z; [|reflexivity].
  rewrite perm_swap. now constructor.
Qed.

Lemma insertion_sort_perm (l : list A) : Permutation l (insertion_sort cmp l).
Proof.
  unfold insertion_sort. rewrite <- Permutation_rev.
  rewrite <- (app_nil_r l) at 1. generalize (@nil A) as before.
  induction l as [|x l IH]; intros before; simpl; [reflexivity|].
  rewrite <- IH, <- insert_left_perm. symmetry.
  rewrite <- Permutation_middle. reflexivity.
Qed.

(** A comparator that never answers below zero leaves the array of the
    V8 engine as it is: the leading run spans it. *)
Hypothesis cmp_nonneg : forall a b, (0 <= cmp a b)%Z.

Lemma run_extend_all (previous : A) (l : list A) :
  run_extend cmp false previous l = List.length l.
Proof.
  revert previous. induction l as [|x l IH]; intros previous; simpl;
    [reflexivity|].
  destruct (Z.ltb_spec (cmp x previous) 0) as [H|_].
  - pose proof (cmp_nonneg x previous). lia.
  - now rewrite IH.
Qed.

Lemma count_run_all (l : list A) : count_run cmp l = (List.length l, false).
Proof.
  destruct l as [|low [|high r]]; try reflexivity. simpl.
  destruct (Z.ltb_spec (cmp high low) 0) as [H|_].
  - pose proof (cmp_nonneg high low). lia.
  - now rewrite run_extend_all.
Qed.

Lemma v8_sort_nonneg (l : list A) : v8_sort cmp l = l.
Proof.
  unfold v8_sort. rewrite count_run_all, firstn_all, skipn_all. reflexivity.
Qed.

End EngineFacts.

(** The two engines. *)
Definition v8 : ArraySort :=
  {| array_sort := @v8_sort; array_sort_perm := v8_sort_perm |}.

Definition legacy : ArraySort :=
  {| array_sort := @insertion_sort; array_sort_perm := insertion_sort_perm |}.

Lemma score_compare_nonneg scores a b : (0 <= score_compare scores a b)%Z.
Proof. unfold score_compare. destruct (score_less scores a b); simpl; lia. Qed.

Lemma slice0_length (A : Type) (l : list A) (e : Z) :
  (0 <= e)%Z ->
  List.length (slice0 l e) = Nat.min (Z.to_nat e) (List.length l).
Proof.
  intros He. unfold slice0.
  destruct (Z.ltb_spec e 0) as [H|_]; [lia|].
  rewrite length_firstn. lia.
Qed.

(** C6: for every list of [L] scored elements and every cap [N >= 0], the
    Selector returns [min(N, L)] elements when [N > 0] and [L] elements
    when [N = 0]. *)
Theorem sortAndCapClels_length (engine : ArraySort) this (clels : list clel)
    (clelScores : obj jsnum) :
  (0 <= maxN this)%Z ->
  List.length (_sortAndCapClels engine this clels clelScores)
  = if (0 <? maxN this)%Z
    then Nat.min (Z.to_nat (maxN this)) (List.length clels)
    else List.length clels.
Proof.
  intros HN. unfold _sortAndCapClels.
  pose proof (Permutation_length
                (array_sort_perm engine (score_compare clelScores) clels)) as Hlen.
  destruct (Z.eqb_spec (maxN this) 0) as [E|Hne]; simpl.
  - rewrite E. simpl. now symmetry.
  - destruct (Z.ltb_spec 0 (maxN this)) as [_|H]; [|lia].
    rewrite slice0_length by exact HN. now rewrite <- Hlen.
Qed.

(** C6 at three elements and the cap 2. *)
Lemma sortAndCapClels_length_witness :
  List.length (_sortAndCapClels v8 (capped 2) [el_a; el_b; el_c] scores_abc) = 2%nat.
Proof.
  rewrite (@sortAndCapClels_length v8 (capped 2) [el_a; el_b; el_c] scores_abc).
  - reflexivity.
  - simpl. lia.
Defined.

(** C4 fails on the V8 engine: the comparator answers [true] or [false],
    never a number below zero, and the array comes back in its input
    order, here ascending in score. *)
Theorem sortAndCapClels_v8_unsorted :
  _sortAndCapClels v8 (capped 0) [el_a; el_b] scores_ab = [el_a; el_b]
  /\ score_less scores_ab el_a el_b = true.
Proof.
  split.
  - unfold _sortAndCapClels. simpl array_sort.
    rewrite v8_sort_nonneg by apply score_compare_nonneg. reflexivity.
  - unfold score_less. simpl.
    destruct (Rlt_dec (1 / 4) (3 / 4)) as [_|H]; [reflexivity|exfalso; lra].
Qed.

(** *** The engines that move an element on an answer above zero *)

Section LegacyFacts.
Variable A : Type.
Variable lt : A -> A -> bool.
Variable ok : A -> Prop.

(** On the elements at hand [lt] is a strict weak order. *)
Hypothesis lt_asym : forall a b, ok a -> ok b -> lt a b = true -> lt b a = false.
Hypothesis lt_chain :
  forall a b c, ok a -> ok b -> ok c ->
    lt a b = false -> lt b c = false -> lt a c = false.

Let cmp (a b : A) : Z := Z.b2z (lt a b).

Lemma insert_left_In (e x : A) before :
  In x (insert_left cmp e before) -> x = e \/ In x before.
Proof.
  intros H. apply (Permutation_in x (Permutation_sym (insert_left_perm cmp e before))) in H.
  destruct H; auto.
Qed.

Lemma insert_left_sorted (e : A) before :
  ok e -> Forall ok before ->
  ascending_back lt before -> ascending_back lt (insert_left cmp e before).
Proof.
  intros He Hok Hs. induction Hs as [|tmp r Hs IH Hall]; simpl.
  - repeat constructor.
  - inversion Hok as [|? ? Htmp Hr]; subst. unfold cmp at 1.
    destruct (lt tmp e) eqn:Hlt; simpl.
    + constructor; [now apply IH|].
      apply Forall_forall. intros x Hx.
      destruct (insert_left_In _ _ _ Hx) as [->|Hin].
      * now apply lt_asym.
      * rewrite Forall_forall in Hall. now apply Hall.
    + constructor; [now constructor|].
      constructor; [exact Hlt|].
      rewrite Forall_forall in *. intros x Hx.
      apply (lt_chain (a := x) (b := tmp) (c := e)); auto.
Qed.

Lemma insert_left_filter (p : A -> bool) (e : A) before :
  (forall a b, p a = true -> p b = true -> lt a b = false) ->
  filter p (insert_left cmp e before)
  = (if p e then [e] else []) ++ filter p before.
Proof.
  intros Htie. induction before as [|tmp r IH]; simpl.
  - destruct (p e); reflexivity.
  - unfold cmp at 1. destruct (lt tmp e) eqn:Hlt; simpl.
    + destruct (p tmp) eqn:Hpt; rewrite IH.
      * destruct (p e) eqn:Hpe; [|reflexivity].
        rewrite (Htie tmp e Hpt Hpe) in Hlt. discriminate.
      * reflexivity.
    + destruct (p e); reflexivity.
Qed.

Lemma sorted_snoc (R : A -> A -> Prop) (l : list A) (x : A) :
  StronglySorted R l -> Forall (fun y => R y x) l ->
  StronglySorted R (l ++ [x]).
Proof.
  induction 1 as [|a l Hs IH Hall]; intros Hx; simpl.
  - repeat constructor.
  - inversion Hx; subst. constructor; [now apply IH|].
    apply Forall_app. split; [exact Hall|]. now repeat constructor.
Qed.

Lemma sorted_rev (R : A -> A -> Prop) (l : list A) :
  StronglySorted R l -> StronglySorted (fun a b => R b a) (rev l).
Proof.
  induction 1 as [|a l Hs IH Hall]; simpl; [constructor|].
  apply sorted_snoc; [exact IH|].
  apply Forall_forall. intros y Hy. apply in_rev in Hy.
  rewrite Forall_forall in Hall. now apply Hall.
Qed.

Lemma fold_insert_left (p : A -> bool) (l before : list A) :
  Forall ok l -> Forall ok before -> ascending_back lt before ->
  (forall a b, p a = true -> p b = true -> lt a b = false) ->
  let out := fold_left (fun b e => insert_left cmp e b) l before in
  ascending_back lt out /\ filter p out = rev (filter p l) ++ filter p before.
Proof.
  revert before. induction l as [|e l IH]; intros before Hl Hb Hs Htie; simpl.
  - split; [exact Hs|reflexivity].
  - inversion Hl as [|? ? He Hl']; subst.
    destruct (IH (insert_left cmp e before)) as [H1 H2]; auto.
    + apply Forall_forall. intros x Hx.
      destruct (insert_left_In _ _ _ Hx) as [->|Hin]; [exact He|].
      rewrite Forall_forall in Hb. now apply Hb.
    + now apply insert_left_sorted.
    + split; [exact H1|]. simpl in H2. rewrite H2, insert_left_filter by exact Htie.
      destruct (p e); simpl; [|reflexivity].
      now rewrite <- app_assoc.
Qed.

(** On such engines the output is descending and ties keep their input
    order. *)
Lemma insertion_sort_descending_stable (p : A -> bool) (l : list A) :
  Forall ok l ->
  (forall a b, p a = true -> p b = true -> lt a b = false) ->
  StronglySorted (fun a b => lt a b = false) (insertion_sort cmp l)
  /\ filter p (insertion_sort cmp l) = filter p l.
Proof.
  intros Hl Htie. unfold insertion_sort.
  destruct (@fold_insert_left p l [] Hl (Forall_nil _) (SSorted_nil _) Htie)
    as [H1 H2].
  split.
  - now apply sorted_rev in H1.
  - rewrite filter_rev. simpl in H2. rewrite H2. simpl.
    now rewrite app_nil_r, rev_involutive.
Qed.

End LegacyFacts.

(** What C4 asks for holds, for finite scores, on the engines that sort
    by such insertion: which engine runs decides the order. *)
Lemma sortAndCapClels_legacy (p : clel -> bool) this clels scores :
  maxN this = 0%Z ->
  Forall (finite_score scores) clels ->
  (forall a b, p a = true -> p b = true -> score_less scores a b = false) ->
  StronglySorted (fun a b => score_less scores a b = false)
                 (_sortAndCapClels legacy this clels scores)
  /\ filter p (_sortAndCapClels legacy this clels scores) = filter p clels.
Proof.
  intros HN Hfin Htie. unfold _sortAndCapClels. rewrite HN. simpl.
  apply (@insertion_sort_descending_stable clel (score_less scores)
           (finite_score scores)); try assumption.
  - intros a b [x Hx] [y Hy]. unfold score_less. rewrite Hx, Hy. simpl.
    destruct (Rlt_dec x y); [|discriminate].
    destruct (Rlt_dec y x); [lra|reflexivity].
  - intros a b c [x Hx] [y Hy] [z Hz]. unfold score_less.
    rewrite Hx, Hy, Hz. simpl.
    destruct (Rlt_dec x y); [discriminate|].
    destruct (Rlt_dec y z); [discriminate|].
    destruct (Rlt_dec x z); [lra|reflexivity].
Qed.

(* ================================================================== *)
(** ** Render passes *)

Lemma configured_distiller this :
  exists f, configured this (distiller this) "distiller" as_distiller = Ok f.
Proof.
  unfold configured. destruct (distiller this) as [f|]; [now exists f|].
  unfold _getCallback. destruct (useTerms this); eexists; reflexivity.
Qed.



Lemma renderCloud_container engine this clels :
  container this <> 1%nat -> _renderCloud engine this clels = Throw ContainerError.
Proof.
  intros H. unfold _renderCloud.
  destruct (Nat.eqb_spec (container this) 1); [contradiction|reflexivity].
Qed.

(** C1, amended: for every configuration whose container selector does
    not resolve to exactly one element, the render entry point called with
    raw query parameters first issues the annotation query; the container
    error is raised in the callback that receives the response, and there
    it is raised before any collapsing, scoring, sorting or layout work. *)
Theorem render_container_error (engine : ArraySort) this (attrs : QueryAttrs) :
  container this <> 1%nat ->
  exists callback,
    render engine this attrs = Query attrs callback
    /\ (forall data, callback data = Throw ContainerError)
    /\ (forall clels, _renderCloud engine this clels = Throw ContainerError).
Proof.
  intros H. eexists. split; [reflexivity|]. split.
  - intros data. unfold renderStored.
    destruct (configured_distiller this) as [f ->].
    now apply renderCloud_container.
  - intros clels. now apply renderCloud_container.
Qed.

(** The amended claim C1 at a selector that matches nothing. *)
Lemma render_container_error_witness :
  exists callback,
    render v8 (defaults 0 []) attrs_swi = Query attrs_swi callback
    /\ callback [r_bp] = Throw ContainerError.
Proof.
  destruct (@render_container_error v8 (defaults 0 []) attrs_swi)
    as [callback [H1 [H2 _]]].
  - discriminate.
  - exists callback. split; [exact H1|apply H2].
Defined.

(** C1 as stated fails: with a selector that matches nothing the call
    does not throw, it issues the query. *)
Lemma render_queries_first :
  container (defaults 0 []) <> 1%nat
  /\ render v8 (defaults 0 []) attrs_swi <> Throw ContainerError
  /\ exists callback, render v8 (defaults 0 []) attrs_swi = Query attrs_swi callback.
Proof.
  split; [discriminate|]. split; [discriminate|].
  eexists. reflexivity.
Qed.


(* ================================================================== *)
(** * Further properties of the code *)

(** ** [_logBase] and [_capValue] *)

Lemma ln_le_mono (x y : R) : 0 < x -> x <= y -> ln x <= ln y.
Proof.
  intros Hx [Hlt | ->]; [|lra]. left. now apply ln_increasing.
Qed.




Lemma logBase_zero (b : R) : 1 < b -> _logBase (Fin b) (Fin 0) = NInf.
Proof.
  intros Hb. pose proof (ln_gt_0 Hb) as Hln.
  unfold _logBase. rewrite (Math_log_Fin (x := b)) by lra. simpl.
  destruct (Rlt_dec 0 0) as [H|_]; [lra|].
  destruct (Req_dec_T 0 0) as [_|H]; [|now elim H]. simpl.
  destruct (Rlt_dec (ln b) 0) as [H|_]; [lra|reflexivity].
Qed.

(** X2: off the positive arguments, for a base above 1: the logarithm of
    zero is [-Infinity], the logarithm of a negative number, of [NaN] and
    of [-Infinity] is [NaN], and the logarithm of [Infinity] is
    [Infinity]. *)
Theorem logBase_edges (b x : R) :
  1 < b -> x < 0 ->
  _logBase (Fin b) (Fin 0) = NInf
  /\ _logBase (Fin b) (Fin x) = NaN
  /\ _logBase (Fin b) NaN = NaN
  /\ _logBase (Fin b) NInf = NaN
  /\ _logBase (Fin b) PInf = PInf.
Proof.
  intros Hb Hx. pose proof (ln_gt_0 Hb) as Hln.
  unfold _logBase. rewrite (Math_log_Fin (x := b)) by lra. simpl.
  destruct (Rlt_dec 0 0) as [H|_]; [lra|].
  destruct (Req_dec_T 0 0) as [_|H]; [|now elim H].
  destruct (Rlt_dec x 0) as [_|H]; [|contradiction]. simpl.
  destruct (Rlt_dec (ln b) 0) as [H|_]; [lra|].
  repeat split; reflexivity.
Qed.

Lemma logBase_edges_witness : _logBase (Fin 10) (Fin 0) = NInf.
Proof. apply (@logBase_edges 10 (-1)); lra. Defined.

(** X3: between finite bounds [lo <= hi], [_capValue] returns a number
    within the bounds for every argument that is a number, returns the
    argument itself when it already lies within them, and returns [NaN]
    for [NaN]. *)
Theorem capValue_bounds (x : jsnum) (lo hi : R) :
  lo <= hi ->
  _capValue NaN (Fin lo) (Fin hi) = NaN
  /\ (x <> NaN ->
      exists r, _capValue x (Fin lo) (Fin hi) = Fin r /\ lo <= r <= hi)
  /\ (forall v, x = Fin v -> lo <= v <= hi ->
        _capValue x (Fin lo) (Fin hi) = x).
Proof.
  intros H. split; [reflexivity|]. split.
  - intros Hx. destruct x as [v| | |].
    + now apply capValue_Fin.
    + contradiction.
    + exists hi. split; [reflexivity|lra].
    + exists lo. split; [reflexivity|lra].
  - intros v -> Hv. unfold _capValue. simpl.
    destruct (Rlt_dec v lo); [lra|]. destruct (Rlt_dec hi v); [lra|reflexivity].
Qed.

Lemma capValue_bounds_witness :
  _capValue (Fin 20) (Fin 12) (Fin 35) = Fin 20.
Proof.
  destruct (@capValue_bounds (Fin 20) 12 35) as [_ [_ H]]; [lra|].
  apply (H 20); [reflexivity|lra].
Defined.

(** ** Default sizers *)

Lemma capValue_mono (s1 s2 lo hi : R) :
  lo <= hi -> s1 <= s2 ->
  exists r1 r2,
    _capValue (Fin s1) (Fin lo) (Fin hi) = Fin r1
    /\ _capValue (Fin s2) (Fin lo) (Fin hi) = Fin r2
    /\ r1 <= r2.
Proof.
  intros H Hs. unfold _capValue. simpl.
  destruct (Rlt_dec s1 lo); destruct (Rlt_dec s2 lo);
    destruct (Rlt_dec hi s1); destruct (Rlt_dec hi s2);
    eexists; eexists; (split; [reflexivity|split; [reflexivity|lra]]).
Qed.

Lemma sizerTerm_Fin (x sc : R) s ts :
  sizerTerm {| score := Fin x; scaling := Fin sc; str := s; termdata := ts |}
  = _capValue (Fin (x * 800 * sc)) (Fin 12) (Fin (72 * sc)).
Proof. reflexivity. Qed.

Lemma sizerWord_raw_mono (x y sc : R) :
  0 <= x <= y -> 0 <= sc ->
  ln (x * 600 + 1) / ln 2 * 12 * sc <= ln (y * 600 + 1) / ln 2 * 12 * sc.
Proof.
  intros Hxy Hsc.
  assert (Hln2 : 0 < ln 2) by (apply ln_gt_0; lra).
  assert (Hln : ln (x * 600 + 1) <= ln (y * 600 + 1))
    by (apply ln_le_mono; lra).
  apply Rmult_le_compat_r; [exact Hsc|].
  apply Rmult_le_compat_r; [lra|].
  unfold Rdiv. apply Rmult_le_compat_r; [|exact Hln].
  left. now apply Rinv_0_lt_compat.
Qed.

(** X4: with a scaling constant of at least 1/6, both default sizers are
    monotone: of two non-negative scores the larger never gets the smaller
    size. *)
Theorem default_sizers_monotone (x y sc : R) (s s' : string)
    (ts ts' : list AnnotationRecord) :
  0 <= x <= y -> 1 / 6 <= sc ->
  (exists r1 r2,
     sizerWord {| score := Fin x; scaling := Fin sc; str := s; termdata := ts |}
     = Fin r1
     /\ sizerWord {| score := Fin y; scaling := Fin sc; str := s';
                     termdata := ts' |} = Fin r2
     /\ r1 <= r2)
  /\ (exists r1 r2,
        sizerTerm {| score := Fin x; scaling := Fin sc; str := s; termdata := ts |}
        = Fin r1
        /\ sizerTerm {| score := Fin y; scaling := Fin sc; str := s';
                        termdata := ts' |} = Fin r2
        /\ r1 <= r2).
Proof.
  intros Hxy Hsc. split.
  - rewrite !sizerWord_Fin by lra. unfold cap. apply capValue_mono; [simpl; lra|].
    apply sizerWord_raw_mono; lra.
  - rewrite !sizerTerm_Fin. apply capValue_mono; [lra|].
    apply Rmult_le_compat_r; [lra|]. lra.
Qed.

Lemma default_sizers_monotone_witness :
  exists r1 r2,
    sizerTerm {| score := Fin (1 / 4); scaling := Fin (1 / 2); str := "a";
                 termdata := [r_bp] |} = Fin r1
    /\ sizerTerm {| score := Fin (3 / 4); scaling := Fin (1 / 2); str := "b";
                    termdata := [r_mf] |} = Fin r2
    /\ r1 <= r2.
Proof.
  apply (@default_sizers_monotone (1 / 4) (3 / 4) (1 / 2) "a" "b" [r_bp] [r_mf]);
    lra.
Defined.

Lemma ln_64 : ln 64 = 6 * ln 2.
Proof.
  replace 64 with (2 ^ 6) by (simpl; lra).
  rewrite ln_pow by lra. simpl. lra.
Qed.

(** X5: with a scaling constant of at least 1/6 the sizes saturate.  In
    term mode a score of at least 0.09 gets the largest size
    [72 x scaling] and a score of at most [12 / (800 x scaling)] the
    smallest size 12; in word mode a score of at least 0.105 gets the
    largest size. *)
Theorem default_sizers_saturate (x sc : R) (s : string)
    (ts : list AnnotationRecord) :
  1 / 6 <= sc -> 0 <= x ->
  (9 / 100 <= x ->
   sizerTerm {| score := Fin x; scaling := Fin sc; str := s; termdata := ts |}
   = Fin (72 * sc))
  /\ (x * 800 * sc <= 12 ->
      sizerTerm {| score := Fin x; scaling := Fin sc; str := s; termdata := ts |}
      = Fin 12)
  /\ (21 / 200 <= x ->
      sizerWord {| score := Fin x; scaling := Fin sc; str := s; termdata := ts |}
      = Fin (72 * sc)).
Proof.
  intros Hsc Hx. split; [|split].
  - intros H. rewrite sizerTerm_Fin. unfold _capValue. simpl.
    assert (72 * sc <= x * 800 * sc) by nra.
    destruct (Rlt_dec (x * 800 * sc) 12); [lra|].
    destruct (Rlt_dec (72 * sc) (x * 800 * sc)) as [_|Hn]; [reflexivity|].
    f_equal. lra.
  - intros H. rewrite sizerTerm_Fin. unfold _capValue. simpl.
    destruct (Rlt_dec (x * 800 * sc) 12) as [_|Hn]; [reflexivity|].
    destruct (Rlt_dec (72 * sc) (x * 800 * sc)); [lra|].
    f_equal. lra.
  - intros H. rewrite sizerWord_Fin by lra. unfold cap, _capValue. simpl.
    assert (Hln2 : 0 < ln 2) by (apply ln_gt_0; lra).
    assert (Hln : 6 * ln 2 <= ln (x * 600 + 1)).
    { rewrite <- ln_64. apply ln_le_mono; lra. }
    assert (Hq : 6 <= ln (x * 600 + 1) / ln 2).
    { apply (Rmult_le_reg_r (ln 2)); [exact Hln2|].
      replace (ln (x * 600 + 1) / ln 2 * ln 2) with (ln (x * 600 + 1))
        by (field; lra). exact Hln. }
    assert (Hs : 72 * sc <= ln (x * 600 + 1) / ln 2 * 12 * sc) by nra.
    destruct (Rlt_dec (ln (x * 600 + 1) / ln 2 * 12 * sc) 12); [lra|].
    destruct (Rlt_dec (72 * sc) (ln (x * 600 + 1) / ln 2 * 12 * sc))
      as [_|Hn]; [reflexivity|].
    f_equal. lra.
Qed.

Lemma default_sizers_saturate_witness :
  sizerTerm {| score := Fin (1 / 2); scaling := Fin (1 / 2); str := "a";
               termdata := [r_bp] |} = Fin (72 * (1 / 2)).
Proof.
  destruct (@default_sizers_saturate (1 / 2) (1 / 2) "a" [r_bp]) as [H _];
    [lra|lra|]. apply H. lra.
Defined.

Lemma js_lt_NaN_r (a : jsnum) : js_lt a NaN = false.
Proof. destruct a; reflexivity. Qed.

(** X6: a score that is [NaN], as every score is when the raw scores are
    all zero, is not clamped: both default sizers return [NaN] for it,
    whatever the scaling. *)
Theorem default_sizers_NaN (sc : jsnum) (s : string)
    (ts : list AnnotationRecord) :
  sizerWord {| score := NaN; scaling := sc; str := s; termdata := ts |} = NaN
  /\ sizerTerm {| score := NaN; scaling := sc; str := s; termdata := ts |} = NaN.
Proof.
  unfold sizerWord, sizerTerm, cap, _capValue. simpl.
  rewrite js_lt_NaN_r. split; reflexivity.
Qed.

(** ** Default scorer *)

Lemma Rsum_abs_nonneg (l : list R) : 0 <= Rsum (map Rabs l).
Proof.
  induction l as [|x l IH]; simpl; [lra|].
  pose proof (Rabs_pos x). lra.
Qed.

Lemma Rsum_abs_zero (l : list R) :
  Rsum (map Rabs l) = 0 <-> Forall (fun x => x = 0) l.
Proof.
  induction l as [|x l IH]; simpl.
  - split; [constructor|reflexivity].
  - pose proof (Rabs_pos x). pose proof (Rsum_abs_nonneg l). split.
    + intros H1. constructor.
      * destruct (Req_dec_T x 0) as [E|Hne]; [exact E|].
        pose proof (Rabs_pos_lt x Hne). lra.
      * apply IH. lra.
    + intros Hall. inversion Hall as [|? ? Hx Hl]; subst.
      rewrite Rabs_R0. apply IH in Hl. lra.
Qed.

Lemma log10_zero_iff (p : R) : 0 < p -> (log10 p = 0 <-> p = 1).
Proof.
  intros Hp. assert (Hln : 0 < ln 10) by (apply ln_gt_0; lra).
  unfold log10. split.
  - intros H. apply ln_inv; [exact Hp|lra|]. rewrite ln_1.
    apply (Rmult_eq_reg_r (/ ln 10)); [|apply Rinv_neq_0_compat; lra].
    unfold Rdiv in H. lra.
  - intros ->. rewrite ln_1. unfold Rdiv. ring.
Qed.

Lemma scorerWord_positive (attrs : scorerAttrs) (ps : list R) :
  map p_value (scorer_termdata attrs) = map Fin ps ->
  Forall (fun p => 0 < p) ps ->
  scorerWord attrs = Fin (Rsum (map Rabs (map log10 ps))).
Proof.
  intros Hps Hpos. unfold scorerWord. rewrite fold_scorer.
  rewrite <- (map_map p_value (fun p => Math_abs (_logBase (Fin 10) p))), Hps.
  rewrite map_map.
  rewrite (map_ext_in _ (fun p => Fin (Rabs (log10 p)))).
  - rewrite <- (map_map (fun p => Rabs (log10 p)) Fin), fold_add_Fin.
    rewrite map_map. f_equal. lra.
  - intros p Hp. rewrite Forall_forall in Hpos.
    rewrite logBase_Fin by (auto; lra). reflexivity.
Qed.

(** X7: on records with positive p-values the default scorer returns a
    finite number that is at least 0, and it returns 0 exactly when every
    p-value is 1. *)
Theorem scorerWord_nonneg (attrs : scorerAttrs) (ps : list R) :
  map p_value (scorer_termdata attrs) = map Fin ps ->
  Forall (fun p => 0 < p) ps ->
  exists s,
    scorerWord attrs = Fin s
    /\ 0 <= s
    /\ (s = 0 <-> Forall (fun p => p = 1) ps).
Proof.
  intros Hps Hpos. eexists. split; [apply scorerWord_positive; eassumption|].
  split; [apply Rsum_abs_nonneg|].
  rewrite Rsum_abs_zero. rewrite !Forall_forall in *. split.
  - intros H p Hp. apply log10_zero_iff; [now apply Hpos|].
    apply H. now apply in_map.
  - intros H x Hx. apply in_map_iff in Hx. destruct Hx as [p [<- Hp]].
    apply log10_zero_iff; [now apply Hpos|now apply H].
Qed.

Lemma scorerWord_nonneg_witness :
  exists s,
    scorerWord {| scorer_str := "cycle"; scorer_termdata := [r_tenth; r_one] |}
    = Fin s /\ 0 <= s.
Proof.
  destruct (@scorerWord_nonneg
              {| scorer_str := "cycle"; scorer_termdata := [r_tenth; r_one] |}
              [1 / 10; 1]) as [s [H1 [H2 _]]].
  - reflexivity.
  - repeat constructor; lra.
  - exists s. split; assumption.
Defined.

Lemma weight_cases (t : AnnotationRecord) (p : R) :
  p_value t = Fin p -> 0 <= p ->
  (p = 0 /\ weight t = PInf) \/ (0 < p /\ exists w, weight t = Fin w).
Proof.
  intros Hp Hge. unfold weight. rewrite Hp.
  destruct (Req_dec_T p 0) as [->|Hne].
  - left. split; [reflexivity|].
    rewrite logBase_zero by lra. reflexivity.
  - right. split; [lra|]. rewrite logBase_Fin by lra. eexists. reflexivity.
Qed.

Lemma fold_add_PInf (l : list jsnum) :
  Forall (fun v => v = PInf \/ exists w, v = Fin w) l ->
  fold_left js_add l PInf = PInf.
Proof.
  induction 1 as [|v l [->|[w ->]] _ IH]; simpl; [reflexivity|exact IH|exact IH].
Qed.

Lemma fold_add_reaches_PInf (l : list jsnum) : forall a,
  Forall (fun v => v = PInf \/ exists w, v = Fin w) l ->
  In PInf l ->
  fold_left js_add l (Fin a) = PInf.
Proof.
  induction l as [|v l IH]; intros a Hall Hin; [contradiction|].
  inversion Hall as [|? ? Hv Hl]; subst. simpl.
  destruct Hv as [->|[w ->]].
  - simpl. now apply fold_add_PInf.
  - simpl. apply IH; [exact Hl|]. destruct Hin as [E|Hin]; [discriminate|exact Hin].
Qed.

(** X8: a p-value of 0 among non-negative p-values makes the default
    score [Infinity]. *)
Theorem scorerWord_zero_p_value (attrs : scorerAttrs) (ps : list R) :
  map p_value (scorer_termdata attrs) = map Fin ps ->
  Forall (fun p => 0 <= p) ps ->
  In 0 ps ->
  scorerWord attrs = PInf.
Proof.
  intros Hps Hpos Hin. unfold scorerWord. rewrite fold_scorer.
  fold weight.
  assert (Hw : forall ts qs, map p_value ts = map Fin qs ->
            Forall (fun p => 0 <= p) qs ->
            Forall (fun v => v = PInf \/ exists w, v = Fin w) (map weight ts)
            /\ (In 0 qs -> In PInf (map weight ts))).
  { induction ts as [|t ts IH]; intros [|q qs] Hm Hq; try discriminate.
    - split; [constructor|intros []].
    - simpl in Hm. injection Hm as Ht Hm. inversion Hq as [|? ? Hq0 Hq']; subst.
      destruct (IH qs Hm Hq') as [IH1 IH2]. simpl.
      destruct (weight_cases t Ht Hq0) as [[-> Hwt]|[Hpos' [w Hwt]]].
      + split; [constructor; [now left|exact IH1]|intros _; now left].
      + split; [constructor; [right; now exists w|exact IH1]|].
        intros [E|Hi]; [lra|right; now apply IH2]. }
  destruct (Hw _ _ Hps Hpos) as [H1 H2].
  apply fold_add_reaches_PInf; [exact H1|now apply H2].
Qed.

Lemma scorerWord_zero_p_value_witness :
  scorerWord {| scorer_str := "cycle";
                scorer_termdata := [r_tenth; sample "cell cycle" 0 "BP"] |}
  = PInf.
Proof.
  apply (@scorerWord_zero_p_value _ [1 / 10; 0]).
  - reflexivity.
  - repeat constructor; lra.
  - simpl. auto.
Defined.

(** ** Default term colorer *)

(** X9: the term colorer passes over records with an empty domain tag at
    the head of the list: the colour is that of the remaining records. *)
Theorem colorerTerm_skips_empty_tag (v : AnnotationRecord)
    (ts : list AnnotationRecord) :
  domain v = "" ->
  colorerTerm_color (v :: ts) = colorerTerm_color ts.
Proof.
  intros Hv. unfold colorerTerm_color. simpl colorerTerm_each. rewrite Hv.
  destruct ts as [|t ts]; reflexivity.
Qed.

Lemma colorerTerm_skips_empty_tag_witness :
  colorerTerm_color [sample "a" 1 ""; r_bp; r_mf] = colorerTerm_color [r_bp; r_mf].
Proof. now apply colorerTerm_skips_empty_tag. Defined.

(** X10: the palette has the keys BP, MF and CC only: an element whose
    records share any other domain tag gets no colour ([undefined]),
    unless the tag is the key [multiple] or names an inherited
    property. *)
Theorem colorerTerm_unknown_domain (d : string) (ts : list AnnotationRecord) :
  ts <> [] ->
  Forall (fun t => domain t = d) ts ->
  d <> "" ->
  ~ In d ["BP"; "MF"; "CC"; "multiple"] ->
  inherited d = false ->
  colorerTerm_color ts = Undefined.
Proof.
  intros Hne Hall Hd Hpal Hinh. destruct ts as [|v ts]; [contradiction|].
  inversion Hall as [|? ? Hv Hts]; subst.
  rewrite colorerTerm_color_cons by assumption.
  replace (forallb (fun t => String.eqb (domain v) (domain t)) ts) with true.
  - unfold JsObj.get, domainColor. simpl own.
    destruct (String.eqb_spec (domain v) "BP") as [E|_];
      [exfalso; apply Hpal; rewrite E; simpl; auto|].
    destruct (String.eqb_spec (domain v) "MF") as [E|_];
      [exfalso; apply Hpal; rewrite E; simpl; auto|].
    destruct (String.eqb_spec (domain v) "CC") as [E|_];
      [exfalso; apply Hpal; rewrite E; simpl; auto|].
    destruct (String.eqb_spec (domain v) "multiple") as [E|_];
      [exfalso; apply Hpal; rewrite E; simpl; auto|].
    now rewrite Hinh.
  - symmetry. apply forallb_forall. intros t Ht.
    rewrite Forall_forall in Hts. rewrite (Hts t Ht). apply String.eqb_refl.
Qed.

Lemma colorerTerm_unknown_domain_witness :
  colorerTerm_color [sample "Cell cycle" (1 / 100) "keg"] = Undefined.
Proof.
  apply (@colorerTerm_unknown_domain "keg").
  - discriminate.
  - repeat constructor.
  - discriminate.
  - simpl. intros [H|[H|[H|[H|[]]]]]; discriminate.
  - reflexivity.
Defined.

(** ** The stop word table and the distillers *)

Lemma stopword_fold_own_inv l : forall (h : obj Z) w v,
  own (fold_left (fun swh x => JsObj.set swh x 1%Z) l h) w = Some v ->
  own h w = Some v \/ (In w l /\ v = 1%Z).
Proof.
  induction l as [|x l IH]; intros h w v H; simpl in H; [now left|].
  apply IH in H. destruct H as [H|[Hin Hv]]; [|right; split; [now right|exact Hv]].
  unfold JsObj.set in H.
  destruct (String.eqb x "__proto__"); [now left|].
  destruct (string_dec w x) as [->|Hne].
  - rewrite own_put_same in H. injection H as <-. right. split; [now left|reflexivity].
  - rewrite own_put_other in H by assumption. now left.
Qed.

Lemma stopword_truthy_iff (english : list string) (w : string) :
  truthy_entry (JsObj.get (stopword_table english) w) = true
  <-> In w english \/ inherited w = true.
Proof.
  split.
  - unfold JsObj.get.
    destruct (own (stopword_table english) w) as [v|] eqn:E.
    + intros _. apply stopword_fold_own_inv in E.
      destruct E as [E|[Hin _]]; [discriminate|now left].
    + destruct (inherited w); [now right|discriminate].
  - intros [Hin|Hinh]; [now apply stopword_is_truthy|].
    unfold JsObj.get.
    destruct (own (stopword_table english) w) as [v|] eqn:E.
    + apply stopword_fold_own_inv in E.
      destruct E as [E|[_ ->]]; [discriminate|reflexivity].
    + now rewrite Hinh.
Qed.

(** X11: the table the constructor builds from the stop word list answers
    true exactly for the words of the list and for the names of the
    properties every object inherits. *)
Theorem stopword_table_lookup (english : list string) (w : string) :
  truthy_entry (JsObj.get (stopword_table english) w) = true
  <-> In w english \/ inherited w = true.
Proof. apply stopword_truthy_iff. Qed.

Lemma list_of_append (a b : string) :
  list_ascii_of_string (a ++ b)%string
  = list_ascii_of_string a ++ list_ascii_of_string b.
Proof. induction a as [|c a IH]; simpl; [reflexivity|now rewrite IH]. Qed.












(** ** Callback lookup *)

Lemma string_of_list_inj (a b : string) :
  list_ascii_of_string a = list_ascii_of_string b -> a = b.
Proof.
  intros H. rewrite <- (string_of_list_ascii_of_string a),
    <- (string_of_list_ascii_of_string b). now rewrite H.
Qed.

Lemma append_inv_tail (a b s : string) :
  (a ++ s)%string = (b ++ s)%string -> a = b.
Proof.
  intros H. apply string_of_list_inj.
  apply (f_equal list_ascii_of_string) in H. rewrite !list_of_append in H.
  now apply app_inv_tail in H.
Qed.

Lemma append_last_char (a b s t : string) (c d : ascii) :
  (a ++ (s ++ String c ""))%string = (b ++ (t ++ String d ""))%string -> c = d.
Proof.
  intros H. apply (f_equal list_ascii_of_string) in H.
  rewrite !list_of_append in H. simpl in H. rewrite !app_assoc in H.
  now apply app_inj_tail in H.
Qed.

Lemma own_defaults_none this (name suffix : string) :
  suffix = "Word" \/ suffix = "Term" ->
  ~ In name callback_names ->
  own (_defaultCallbacks this) (name ++ suffix) = None.
Proof.
  intros Hsuf Hname. apply own_none_notin. simpl. intros Hin.
  assert (Hsame : forall base, (name ++ suffix)%string = (base ++ suffix)%string ->
                    In base callback_names -> False).
  { intros base E Hb. apply append_inv_tail in E. subst. contradiction. }
  assert (Hword : forall base, suffix = "Term" ->
                    (name ++ suffix)%string <> (base ++ "Word")%string).
  { intros base -> E.
    apply (@append_last_char name base "Ter" "Wor" "m" "d") in E. discriminate. }
  assert (Hterm : forall base, suffix = "Word" ->
                    (name ++ suffix)%string <> (base ++ "Term")%string).
  { intros base -> E.
    apply (@append_last_char name base "Wor" "Ter" "d" "m") in E. discriminate. }
  unfold callback_names in Hsame.
  destruct Hsuf as [Hs|Hs];
    repeat (destruct Hin as [E|Hin];
            [ symmetry in E;
              first [ now apply (Hword "sizer" Hs) in E
                    | now apply (Hword "colorer" Hs) in E
                    | now apply (Hword "distiller" Hs) in E
                    | now apply (Hword "scorer" Hs) in E
                    | now apply (Hterm "sizer" Hs) in E
                    | now apply (Hterm "colorer" Hs) in E
                    | now apply (Hterm "distiller" Hs) in E
                    | now apply (Hterm "scorer" Hs) in E
                    | (subst suffix;
                       first [ apply (Hsame "sizer" E)
                             | apply (Hsame "colorer" E)
                             | apply (Hsame "distiller" E)
                             | apply (Hsame "scorer" E) ]; simpl; tauto) ]
            | ]);
    contradiction.
Qed.

(** X14: [_getCallback] finds a default for each of the names [sizer],
    [colorer], [distiller] and [scorer], in word mode and in term mode,
    and of the kind the name says; for every other name it throws the
    error [No such callback] with the name it looked up. *)
Theorem getCallback_names this (name : string) :
  let suffix := if useTerms this then "Term" else "Word" in
  (name = "sizer" -> exists f, _getCallback this name = Ok (CbSizer f))
  /\ (name = "colorer" -> exists f, _getCallback this name = Ok (CbColorer f))
  /\ (name = "distiller" ->
      exists f, _getCallback this name = Ok (CbDistiller f))
  /\ (name = "scorer" -> exists f, _getCallback this name = Ok (CbScorer f))
  /\ (~ In name callback_names ->
      _getCallback this name
      = Raise (Error ("No such callback: " ++ dquote ++ (name ++ suffix)
                        ++ dquote)%string)).
Proof.
  simpl. unfold _getCallback.
  repeat split; try (intros ->; destruct (useTerms this); eexists; reflexivity).
  intros Hname. unfold JsObj.get.
  rewrite own_defaults_none; [|destruct (useTerms this); auto|exact Hname].
  destruct (inherited _); reflexivity.
Qed.

Lemma getCallback_names_witness :
  _getCallback (defaults 1 []) "painter"
  = Raise (Error ("No such callback: " ++ dquote ++ "painterWord" ++ dquote)%string).
Proof.
  apply (getCallback_names (defaults 1 []) "painter").
  simpl. intros [H|[H|[H|[H|[]]]]]; discriminate.
Defined.

(** ** Normalizer *)

Lemma collapse_each_error pairs : forall h e,
  collapse_each pairs h = Raise e ->
  e = TypeError "Cannot read property 'push' of undefined".
Proof.
  induction pairs as [|v pairs IH]; intros h e H; simpl in H; [discriminate|].
  unfold collapse_step in H.
  destruct (JsObj.get h (fst v)); simpl in H;
    [now apply IH in H | now injection H | now apply IH in H].
Qed.

(** X15: the Normalizer fails exactly when some text is the name of an
    inherited property, and then with a [TypeError]; otherwise it returns
    a list of cloud elements with the Normalizer's invariant. *)
Theorem collapseClels_fails_iff (pairs : list (string * AnnotationRecord)) :
  ((exists p, In p pairs /\ inherited (fst p) = true) ->
   _collapseClels pairs
   = Raise (TypeError "Cannot read property 'push' of undefined"))
  /\ ((forall p, In p pairs -> inherited (fst p) = false) ->
      exists out, _collapseClels pairs = Ok out /\ CloudElements out).
Proof.
  split.
  - intros H.
    destruct (collapse_each_raises pairs [] (fun k H => match H with end) H)
      as [e He].
    unfold _collapseClels. rewrite He. simpl. f_equal.
    now apply collapse_each_error in He.
  - intros H. exists (values (collapsed pairs)).
    assert (Hout : _collapseClels pairs = Ok (values (collapsed pairs)))
      by (unfold _collapseClels; now rewrite (collapse_each_collapsed pairs H)).
    split; [exact Hout|]. now apply collapseClels_CloudElements in Hout.
Qed.

Lemma collapseClels_fails_iff_witness :
  _collapseClels [("cycle", r_bp); ("valueOf", r_mf)]
  = Raise (TypeError "Cannot read property 'push' of undefined").
Proof.
  apply (collapseClels_fails_iff [("cycle", r_bp); ("valueOf", r_mf)]).
  exists ("valueOf", r_mf). split; [simpl; auto|reflexivity].
Defined.

(** ** Selector *)

Lemma slice0_split (A : Type) (l : list A) (e : Z) :
  exists k, slice0 l e = firstn k l.
Proof. unfold slice0. eexists. reflexivity. Qed.

(** X16: whatever the engine and the cap, the Selector returns elements of
    its input, none more often than the input holds it: the output and a
    remainder make up the input. *)
Theorem sortAndCapClels_sublist (engine : ArraySort) this (clels : list clel)
    (clelScores : obj jsnum) :
  exists rest,
    Permutation clels
      (_sortAndCapClels engine this clels clelScores ++ rest).
Proof.
  unfold _sortAndCapClels.
  pose proof (array_sort_perm engine (score_compare clelScores) clels) as Hp.
  destruct (negb (Z.eqb (maxN this) 0)).
  - destruct (slice0_split (array_sort engine (score_compare clelScores) clels)
                (maxN this)) as [k ->].
    exists (skipn k (array_sort engine (score_compare clelScores) clels)).
    now rewrite firstn_skipn.
  - exists []. now rewrite app_nil_r.
Qed.

(** X17: a negative cap is not taken for unbounded: [slice] counts it from
    the end, and the Selector returns [max(L + N, 0)] elements. *)
Theorem sortAndCapClels_negative_cap (engine : ArraySort) this
    (clels : list clel) (clelScores : obj jsnum) :
  (maxN this < 0)%Z ->
  List.length (_sortAndCapClels engine this clels clelScores)
  = Z.to_nat (Z.max (Z.of_nat (List.length clels) + maxN this) 0).
Proof.
  intros HN. unfold _sortAndCapClels.
  pose proof (Permutation_length
                (array_sort_perm engine (score_compare clelScores) clels)) as Hlen.
  destruct (Z.eqb_spec (maxN this) 0) as [E|_]; [lia|]. simpl.
  unfold slice0. destruct (Z.ltb_spec (maxN this) 0) as [_|H]; [|lia].
  rewrite length_firstn, <- Hlen. lia.
Qed.

Lemma sortAndCapClels_negative_cap_witness :
  List.length (_sortAndCapClels v8 (capped (-1)) [el_a; el_b; el_c] scores_abc)
  = 2%nat.
Proof.
  rewrite (@sortAndCapClels_negative_cap v8 (capped (-1)) [el_a; el_b; el_c]
             scores_abc); [reflexivity|simpl; lia].
Defined.

(** X18: on the V8 engine the Selector does not reorder: without a cap it
    returns its input, with a cap [N > 0] the first [min(N, L)] elements
    of its input, in input order. *)
Theorem sortAndCapClels_v8_prefix this (clels : list clel)
    (clelScores : obj jsnum) :
  (0 <= maxN this)%Z ->
  _sortAndCapClels v8 this clels clelScores
  = if (0 <? maxN this)%Z
    then firstn (Nat.min (Z.to_nat (maxN this)) (List.length clels)) clels
    else clels.
Proof.
  intros HN. unfold _sortAndCapClels. simpl array_sort.
  rewrite v8_sort_nonneg by apply score_compare_nonneg.
  destruct (Z.eqb_spec (maxN this) 0) as [E|Hne]; simpl.
  - rewrite E. reflexivity.
  - destruct (Z.ltb_spec 0 (maxN this)) as [_|H]; [|lia].
    unfold slice0. destruct (Z.ltb_spec (maxN this) 0) as [H|_]; [lia|].
    f_equal. lia.
Qed.

Lemma sortAndCapClels_v8_prefix_witness :
  _sortAndCapClels v8 (capped 2) [el_a; el_b; el_c] scores_abc = [el_a; el_b].
Proof.
  rewrite (@sortAndCapClels_v8_prefix (capped 2) [el_a; el_b; el_c] scores_abc);
    [reflexivity|simpl; lia].
Defined.




(** ** Attribute mapper *)

Lemma configured_sizer_of this :
  configured this (sizer this) "sizer" as_sizer = Ok (sizer_of this).
Proof.
  unfold configured, sizer_of. destruct (sizer this); [reflexivity|].
  unfold _getCallback. destruct (useTerms this); reflexivity.
Qed.

Lemma configured_colorer_of this :
  configured this (colorer this) "colorer" as_colorer = Ok (colorer_of this).
Proof.
  unfold configured, colorer_of. destruct (colorer this); [reflexivity|].
  unfold _getCallback. destruct (useTerms this); reflexivity.
Qed.

Lemma configured_distiller_of this :
  configured this (distiller this) "distiller" as_distiller
  = Ok (distiller_of this).
Proof.
  unfold configured, distiller_of. destruct (distiller this); [reflexivity|].
  unfold _getCallback. destruct (useTerms this); reflexivity.
Qed.

Lemma fold_transform_step f g scores scaling clels : forall acc st,
  fst (fold_left (transform_step f g scores scaling) clels (acc, st))
  = acc ++ styled f g scores scaling st clels.
Proof.
  induction clels as [|v clels IH]; intros acc st; simpl.
  - now rewrite app_nil_r.
  - unfold transform_step at 2. simpl. fold (attrs_of scores scaling v).
    destruct (g st (attrs_of scores scaling v)) as [c st'] eqn:E.
    rewrite IH, <- app_assoc. reflexivity.
Qed.

Lemma renderTransformStr_styled this clels scores scaling :
  _renderTransformStr this clels scores scaling
  = Ok (styled (sizer_of this) (colorer_of this) scores scaling colorState0 clels).
Proof.
  unfold _renderTransformStr.
  rewrite configured_sizer_of, configured_colorer_of. simpl.
  now rewrite fold_transform_step.
Qed.

Lemma styled_elements f g scores scaling clels : forall st,
  map (fun w => (text w, word_termdata w)) (styled f g scores scaling st clels)
  = clels
  /\ map size (styled f g scores scaling st clels)
     = map (fun v => f (attrs_of scores scaling v)) clels.
Proof.
  induction clels as [|[s ts] clels IH]; intros st; simpl; [now split|].
  destruct (IH (snd (g st (attrs_of scores scaling (s, ts))))) as [-> ->].
  now split.
Qed.

(** X20: the attribute mapper never fails.  It returns one word per
    element, in the order of the elements, each with the element's text
    and records, and with the size the sizer gives for the element's
    score. *)
Theorem renderTransformStr_words this (clels : list clel)
    (clelScores : obj jsnum) (scaling : jsnum) :
  exists words,
    _renderTransformStr this clels clelScores scaling = Ok words
    /\ map (fun w => (text w, word_termdata w)) words = clels
    /\ map size words
       = map (fun v => sizer_of this (attrs_of clelScores scaling v)) clels.
Proof.
  eexists. split; [apply renderTransformStr_styled|].
  apply styled_elements.
Qed.

Lemma position_notin (x : Z) (l : list Z) : forall i,
  ~ In x l -> position x l i = None.
Proof.
  induction l as [|y l IH]; intros i H; simpl; [reflexivity|].
  destruct (Z.eqb_spec x y) as [->|_]; [exfalso; apply H; now left|].
  apply IH. intros Hin. apply H. now right.
Qed.

Lemma colorerWord_after (k : nat) (attrs : renderAttrs) :
  colorerWord (colorState_after k) attrs
  = (Own (nth (k mod 20) category20 ""), colorState_after (S k)).
Proof.
  unfold colorerWord, colorState_after, scale_call. simpl filli. simpl fill20.
  simpl scale_domain. simpl scale_range.
  rewrite position_notin.
  - rewrite length_app, length_map, length_seq. simpl List.length.
    replace (k + 1 - 1)%nat with k by lia. f_equal. f_equal; [lia|].
    f_equal. rewrite seq_S, map_app. reflexivity.
  - intros Hin. apply in_map_iff in Hin. destruct Hin as [j [Hj Hin]].
    apply in_seq in Hin. lia.
Qed.

Lemma styled_word_colours f scores scaling clels : forall k,
  map color (styled f colorerWord scores scaling (colorState_after k) clels)
  = map (fun i => Own (nth (i mod 20) category20 ""))
        (seq k (List.length clels)).
Proof.
  induction clels as [|v clels IH]; intros k; simpl; [reflexivity|].
  rewrite colorerWord_after. simpl. now rewrite IH.
Qed.

Lemma styled_term_colours f scores scaling clels : forall st,
  map color (styled f colorerTerm scores scaling st clels)
  = map (fun v => colorerTerm_color (snd v)) clels.
Proof.
  induction clels as [|v clels IH]; intros st; simpl; [reflexivity|].
  now rewrite IH.
Qed.

(** X21: with the default colorers, the word at rank [i] (from 0) of a
    word-mode pass gets the colour [i mod 20] of the 20-colour palette, so
    the colours repeat every 20 ranks; in term mode every word gets the
    colour the term colorer gives its records. *)
Theorem renderTransformStr_colours this (clels : list clel)
    (clelScores : obj jsnum) (scaling : jsnum) :
  colorer this = None ->
  exists words,
    _renderTransformStr this clels clelScores scaling = Ok words
    /\ (useTerms this = false ->
        map color words
        = map (fun i => Own (nth (i mod 20) category20 ""))
              (seq 0 (List.length clels)))
    /\ (useTerms this = true ->
        map color words = map (fun v => colorerTerm_color (snd v)) clels).
Proof.
  intros Hc. eexists. split; [apply renderTransformStr_styled|].
  unfold colorer_of. rewrite Hc. split; intros ->.
  - apply (styled_word_colours (sizer_of this) clelScores scaling clels 0).
  - apply styled_term_colours.
Qed.

Lemma renderTransformStr_colours_witness :
  exists words,
    _renderTransformStr (capped 0) [el_a; el_b] scores_ab (Fin (1 / 2)) = Ok words
    /\ map color words = [Own "#1f77b4"; Own "#aec7e8"].
Proof.
  destruct (@renderTransformStr_colours (capped 0) [el_a; el_b] scores_ab
              (Fin (1 / 2))) as [words [H1 [H2 _]]]; [reflexivity|].
  exists words. split; [exact H1|]. now rewrite H2.
Defined.

(** ** Render passes *)





Lemma renderStored_pairs engine this data :
  renderStored engine this data
  = _renderCloud engine this
      (flat_map (fun r => map (fun str => (str, r)) (distiller_of this r)) data).
Proof. unfold renderStored. now rewrite configured_distiller_of. Qed.



(** X24: in term mode with the default distiller, a record whose term
    name is the name of an inherited property, and short enough to be kept
    whole, stops the pass with a [TypeError]. *)
Theorem renderStored_term_mode_inherited (engine : ArraySort) this
    (data : list AnnotationRecord) :
  container this = 1%nat ->
  distiller this = None ->
  useTerms this = true ->
  (exists r, In r data
             /\ inherited (term_name r) = true
             /\ (Z.of_nat (String.length (term_name r)) <= maxTermLen this)%Z) ->
  renderStored engine this data
  = Throw (TypeError "Cannot read property 'push' of undefined").
Proof.
  intros Hc Hd Hu [r [Hr [Hinh Hlen]]]. rewrite renderStored_pairs.
  unfold _renderCloud. rewrite Hc. simpl.
  set (pairs := flat_map (fun r0 => map (fun str => (str, r0))
                                       (distiller_of this r0)) data).
  assert (Hp : exists p, In p pairs /\ inherited (fst p) = true).
  { exists (term_name r, r). split; [|exact Hinh].
    apply in_flat_map. exists r. split; [exact Hr|].
    apply in_map_iff. exists (term_name r). split; [reflexivity|].
    unfold distiller_of. rewrite Hd, Hu. unfold distillerTerm.
    destruct (Z.ltb_spec (maxTermLen this)
                (Z.of_nat (String.length (term_name r)))); [lia|now left]. }
  destruct (collapse_each_raises pairs [] (fun k H => match H with end) Hp)
    as [e He].
  unfold _collapseClels. rewrite He. simpl.
  now rewrite (collapse_each_error _ _ He).
Qed.

Lemma renderStored_term_mode_inherited_witness :
  renderStored v8
    {| container := 1; width := 300; height := 300; maxN := 0;
       maxTermLen := 25; warnings := false; useTerms := true;
       showLogo := true; showInfo := true;
       sizer := None; colorer := None; scorer := None; distiller := None;
       stopwords := [] |}
    [r_bp; sample "constructor" (1 / 100) "BP"]
  = Throw (TypeError "Cannot read property 'push' of undefined").
Proof.
  apply renderStored_term_mode_inherited; try reflexivity.
  exists (sample "constructor" (1 / 100) "BP").
  split; [simpl; auto|]. split; [reflexivity|simpl; lia].
Defined.

(** ** Further edge behaviour *)







(** X27: with a positive scaling constant below 1/6 the bounds of the
    clamp are crossed, and for every non-negative score each default
    sizer answers one of the two bounds, 12 or [72 x scaling], never a
    size in between. *)
Theorem default_sizers_small_container (x sc : R) (s : string)
    (ts : list AnnotationRecord) :
  0 <= x -> 0 < sc < 1 / 6 ->
  (sizerWord {| score := Fin x; scaling := Fin sc; str := s; termdata := ts |}
   = Fin 12
   \/ sizerWord {| score := Fin x; scaling := Fin sc; str := s; termdata := ts |}
      = Fin (72 * sc))
  /\ (sizerTerm {| score := Fin x; scaling := Fin sc; str := s; termdata := ts |}
      = Fin 12
      \/ sizerTerm {| score := Fin x; scaling := Fin sc; str := s; termdata := ts |}
         = Fin (72 * sc)).
Proof.
  intros Hx Hsc. split.
  - rewrite sizerWord_Fin by lra. unfold cap, _capValue. simpl.
    destruct (Rlt_dec (ln (x * 600 + 1) / ln 2 * 12 * sc) 12); [now left|].
    destruct (Rlt_dec (72 * sc) (ln (x * 600 + 1) / ln 2 * 12 * sc));
      [now right|lra].
  - rewrite sizerTerm_Fin. unfold _capValue. simpl.
    destruct (Rlt_dec (x * 800 * sc) 12); [now left|].
    destruct (Rlt_dec (72 * sc) (x * 800 * sc)); [now right|lra].
Qed.

Lemma default_sizers_small_container_witness :
  sizerTerm {| score := Fin 1; scaling := Fin (1 / 10); str := "a";
               termdata := [r_bp] |} = Fin 12
  \/ sizerTerm {| score := Fin 1; scaling := Fin (1 / 10); str := "a";
                  termdata := [r_bp] |} = Fin (72 * (1 / 10)).
Proof.
  apply (@default_sizers_small_container 1 (1 / 10) "a" [r_bp]); lra.
Defined.
